(** * SearchDialog: catalog loading, filtering, debounced option updates,
      incremental pagination and schedule export

    A shallow embedding of [src/basic/SearchDialog.tsx].  Every definition
    below carries the name of the TypeScript binding it embeds and follows its
    control flow; JavaScript values are represented as follows.

    - strings are [string]; arrays are [list]; numbers that only ever hold
      integers (grades, slot ids, page numbers, lengths) are [Z];
    - [new Map(entries)] is an insertion-ordered association list, because
      [Array.from(map.values())] observes the insertion order;
    - the timetable store, a plain object keyed by table id, is a
      [gmap string _];
    - [console], exceptions and the timer table are explicit state. *)

From Stdlib Require Import ZArith Ascii.
From stdpp Require Import base decidable option list strings pretty gmap fin_maps sorting.

Local Open Scope Z_scope.

(** ** Data model *)

(** Modelled from the spec: the [Lecture] interface, declared in [./types.ts]
    and imported by the dialog.  The fields are the six the dialog reads:
    [id], [title], [grade], [credits], [major] and [schedule]. *)
Record Lecture := mkLecture {
  id : string;
  title : string;
  grade : Z;
  credits : string;
  major : string;
  schedule : string;
}.

#[global] Instance Lecture_eq_dec : EqDecision Lecture.
Proof. solve_decision. Defined.

(** Modelled from the spec: one element of what [parseSchedule] of
    [./utils.ts] returns, a day label with the slot ids it covers. *)
Record Slot := mkSlot {
  day : string;
  range : list Z;
}.

#[global] Instance Slot_eq_dec : EqDecision Slot.
Proof. solve_decision. Defined.

(** A slot tagged with the lecture it was parsed from:
    [{ ...schedule, lecture }] in [addSchedule]. *)
Record Schedule := mkSchedule {
  sched_slot : Slot;
  sched_lecture : Lecture;
}.

#[global] Instance Schedule_eq_dec : EqDecision Schedule.
Proof. solve_decision. Defined.

(** The value stored under [credits].  The interface declares a number, the
    [<Select>] handler stores [e.target.value], a string; both occur. *)
Inductive CreditsValue :=
  | CUndefined
  | CNumber (n : Z)
  | CString (s : string).

#[global] Instance CreditsValue_eq_dec : EqDecision CreditsValue.
Proof. solve_decision. Defined.

(** [interface SearchOption] *)
Record SearchOption := mkSearchOption {
  query : option string;
  grades : list Z;
  days : list string;
  times : list Z;
  majors : list string;
  opt_credits : CreditsValue;
}.

#[global] Instance SearchOption_eq_dec : EqDecision SearchOption.
Proof. solve_decision. Defined.

(** [Props.searchInfo], when it is not [null]. *)
Record SearchInfo := mkSearchInfo {
  tableId : string;
  info_day : option string;
  info_time : option Z;
}.

Definition PAGE_SIZE : Z := 100.

(** ** JavaScript primitives used by the dialog *)

Module JS.

(** [String.prototype.startsWith] *)
Fixpoint startsWith (s p : string) : bool :=
  match p, s with
  | EmptyString, _ => true
  | String _ _, EmptyString => false
  | String b p', String a s' => bool_decide (a = b) && startsWith s' p'
  end.

(** [String.prototype.includes]: does [p] occur somewhere in [s]? *)
Fixpoint includes (s p : string) : bool :=
  startsWith s p ||
  match s with
  | EmptyString => false
  | String _ s' => includes s' p
  end.

(** [Array.prototype.includes] *)
Definition mem `{EqDecision A} (xs : list A) (x : A) : bool :=
  existsb (λ y, bool_decide (y = x)) xs.

(** [Array.prototype.some] *)
Definition some {A} (xs : list A) (f : A → bool) : bool := existsb f xs.

(** [Array.prototype.slice(0, e)]: a negative [e] counts from the end. *)
Definition slice0 {A} (xs : list A) (e : Z) : list A :=
  let len := Z.of_nat (length xs) in
  let final := if e <? 0 then Z.max (len + e) 0 else Z.min e len in
  take (Z.to_nat final) xs.

(** [Math.ceil(a / b)] on integers [a] and [b > 0]. *)
Definition ceil_div (a b : Z) : Z := - ((- a) / b).

(** Truthiness of a string: only [""] is falsy. *)
Definition truthy_string (s : string) : bool :=
  match s with EmptyString => false | _ => true end.

(** Truthiness of an integer number: only [0] is falsy. *)
Definition truthy_number (n : Z) : bool := negb (n =? 0).

(** [String(n)] for an integer [n]. *)
Definition string_of_number (n : Z) : string := pretty n.

(** ** [Map]: keys in first-insertion order, one value per key *)

Section Map.
Context {K V : Type} `{EqDecision K}.

(** [map.set(k, v)]: an existing key keeps its position and takes the new
    value, a new key goes last. *)
Fixpoint set (k : K) (v : V) (m : list (K * V)) : list (K * V) :=
  match m with
  | [] => [(k, v)]
  | (k', v') :: m' =>
      if decide (k' = k) then (k', v) :: m' else (k', v') :: set k v m'
  end.

(** [new Map(entries)]: the entries are set from left to right. *)
Definition of_entries (es : list (K * V)) : list (K * V) :=
  foldl (λ m e, set e.1 e.2 m) [] es.

(** [map.get(k)] *)
Fixpoint get (k : K) (m : list (K * V)) : option V :=
  match m with
  | [] => None
  | (k', v') :: m' => if decide (k' = k) then Some v' else get k m'
  end.

(** [map.values()] *)
Definition values (m : list (K * V)) : list V := m.*2.
End Map.

End JS.

(** ** Console and exceptions

    [fetchAllLectures] writes to the console and catches what its body throws.
    A computation takes the console written so far and either returns a value
    or throws, together with the console it leaves behind. *)

Inductive Error :=
  | NetworkError (msg : string)
  | TypeError (msg : string).

#[global] Instance Error_eq_dec : EqDecision Error.
Proof. solve_decision. Defined.

Inductive LogEntry :=
  | ConsoleLog (label : string) (value : Z)
  | ConsoleError (label : string) (error : Error).

#[global] Instance LogEntry_eq_dec : EqDecision LogEntry.
Proof. solve_decision. Defined.

Inductive Outcome (A : Type) :=
  | Returned (a : A)
  | Thrown (e : Error).
Arguments Returned {A} a.
Arguments Thrown {A} e.

Definition Eff (A : Type) : Type := list LogEntry → Outcome A * list LogEntry.

#[global] Instance Eff_ret : MRet Eff := λ A a console, (Returned a, console).

#[global] Instance Eff_bind : MBind Eff := λ A B k m console,
  match m console with
  | (Returned a, console') => k a console'
  | (Thrown e, console') => (Thrown e, console')
  end.

Definition throw {A} (e : Error) : Eff A := λ console, (Thrown e, console).

(** [try { body } catch (error) { handler }] *)
Definition try_catch {A} (body : Eff A) (handler : Error → Eff A) : Eff A :=
  λ console,
    match body console with
    | (Returned a, console') => (Returned a, console')
    | (Thrown e, console') => handler e console'
    end.

Definition console_log (label : string) (value : Z) : Eff unit :=
  λ console, (Returned (), console ++ [ConsoleLog label value]).

Definition console_error (label : string) (error : Error) : Eff unit :=
  λ console, (Returned (), console ++ [ConsoleError label error]).

(** ** Catalog loader *)

(** How one [axios.get] settles. *)
Inductive Response :=
  | Resolved (data : list Lecture)
  | Rejected (e : Error).

(** What the loader gets from its environment during one call: how the two
    requests settle, which of them settles first, and the two readings of
    [performance.now()]. *)
Record Network := mkNetwork {
  fetchMajors : Response;
  fetchLiberalArts : Response;
  majors_settles_first : bool;
  startTime : Z;
  endTime : Z;
}.

(** [await Promise.all([fetchMajors(), fetchLiberalArts()])]: both payloads in
    the order of the array, or the reason of the rejection that came first. *)
Definition promise_all (net : Network) : Eff (list Lecture * list Lecture) :=
  match fetchMajors net, fetchLiberalArts net with
  | Resolved majorsData, Resolved liberalArtsData =>
      mret (majorsData, liberalArtsData)
  | Rejected e, Resolved _ => throw e
  | Resolved _, Rejected e => throw e
  | Rejected e1, Rejected e2 =>
      throw (if majors_settles_first net then e1 else e2)
  end.

(** [Array.from(new Map(allLectures.map((lecture) => [lecture.id, lecture])).values())] *)
Definition uniqueLectures (allLectures : list Lecture) : list Lecture :=
  JS.values (JS.of_entries ((λ lecture, (id lecture, lecture)) <$> allLectures)).

Definition fetchAllLectures (net : Network) : Eff (list Lecture) :=
  console_log "API 호출 시작:" (startTime net);;
  try_catch
    ('(majorsData, liberalArtsData) ← promise_all net;
     console_log "API 호출 완료:" (endTime net);;
     console_log "소요 시간(ms):" (endTime net - startTime net);;
     let allLectures := majorsData ++ liberalArtsData in
     mret (uniqueLectures allLectures))
    (λ error,
     console_error "강의 데이터 로딩 실패:" error;;
     mret []).

(** ** The dialog component

    Two functions the dialog calls are not defined in the file: the built-in
    [String.prototype.toLowerCase] and [parseSchedule] of [./utils.ts].  The
    component is embedded for every choice of the two. *)

Section Dialog.

Variable toLowerCase : string → string.
Variable parseSchedule : string → list Slot.

(** [!!credits] *)
Definition truthy_credits (c : CreditsValue) : bool :=
  match c with
  | CUndefined => false
  | CNumber n => JS.truthy_number n
  | CString s => JS.truthy_string s
  end.

(** [String(credits)] *)
Definition String_credits (c : CreditsValue) : string :=
  match c with
  | CUndefined => "undefined"
  | CNumber n => JS.string_of_number n
  | CString s => s
  end.

(** [lecture.schedule ? parseSchedule(lecture.schedule) : []] *)
Definition schedules_of (lecture : Lecture) : list Slot :=
  if JS.truthy_string (schedule lecture) then parseSchedule (schedule lecture)
  else [].

(** The six predicates of [filteredLectures], in the order of the chain. *)
Definition matches_query (lowercaseQuery : string) (lecture : Lecture) : bool :=
  JS.includes (toLowerCase (title lecture)) lowercaseQuery
  || JS.includes (toLowerCase (id lecture)) lowercaseQuery.

Definition matches_grades (grades : list Z) (lecture : Lecture) : bool :=
  (length grades =? 0)%nat || JS.mem grades (grade lecture).

Definition matches_majors (majors : list string) (lecture : Lecture) : bool :=
  (length majors =? 0)%nat || JS.mem majors (major lecture).

Definition matches_credits (c : CreditsValue) (lecture : Lecture) : bool :=
  negb (truthy_credits c) || JS.startsWith (credits lecture) (String_credits c).

Definition matches_days (days : list string) (lecture : Lecture) : bool :=
  if (length days =? 0)%nat then true
  else JS.some (schedules_of lecture) (λ s, JS.mem days (day s)).

Definition matches_times (times : list Z) (lecture : Lecture) : bool :=
  if (length times =? 0)%nat then true
  else JS.some (schedules_of lecture)
         (λ s, JS.some (range s) (λ time, JS.mem times time)).

Definition filteredLectures
    (searchOptions : SearchOption) (lectures : list Lecture) : list Lecture :=
  let lowercaseQuery := toLowerCase (default "" (query searchOptions)) in
  List.filter (matches_times (times searchOptions))
    (List.filter (matches_days (days searchOptions))
      (List.filter (matches_credits (opt_credits searchOptions))
        (List.filter (matches_majors (majors searchOptions))
          (List.filter (matches_grades (grades searchOptions))
            (List.filter (matches_query lowercaseQuery) lectures))))).

(** [Math.ceil(filteredLectures.length / PAGE_SIZE)] *)
Definition lastPage (filtered : list Lecture) : Z :=
  JS.ceil_div (Z.of_nat (length filtered)) PAGE_SIZE.

(** [filteredLectures.slice(0, page * PAGE_SIZE)] *)
Definition visibleLectures (filtered : list Lecture) (page : Z) : list Lecture :=
  JS.slice0 filtered (page * PAGE_SIZE).

(** *** Component state: the three [useState] cells and the cache ref *)

Record Dialog := mkDialog {
  lectures : list Lecture;
  page : Z;
  searchOptions : SearchOption;
  lecturesCache : list Lecture;
}.

Definition initialDialog : Dialog :=
  {| lectures := [];
     page := 1;
     searchOptions :=
       {| query := Some ""; grades := []; days := []; times := [];
          majors := []; opt_credits := CUndefined |};
     lecturesCache := [] |}.

Definition setPage (f : Z → Z) (d : Dialog) : Dialog :=
  {| lectures := lectures d; page := f (page d);
     searchOptions := searchOptions d; lecturesCache := lecturesCache d |}.

Definition setSearchOptions (f : SearchOption → SearchOption) (d : Dialog) : Dialog :=
  {| lectures := lectures d; page := page d;
     searchOptions := f (searchOptions d); lecturesCache := lecturesCache d |}.

Definition setLectures (ls : list Lecture) (d : Dialog) : Dialog :=
  {| lectures := ls; page := page d;
     searchOptions := searchOptions d; lecturesCache := lecturesCache d |}.

Definition setLecturesCache (ls : list Lecture) (d : Dialog) : Dialog :=
  {| lectures := lectures d; page := page d;
     searchOptions := searchOptions d; lecturesCache := ls |}.

(** The last page the observer callback sees. *)
Definition currentLastPage (d : Dialog) : Z :=
  lastPage (filteredLectures (searchOptions d) (lectures d)).

(** *** Option updates *)

Inductive Field := Fquery | Fgrades | Fdays | Ftimes | Fmajors | Fcredits.

#[global] Instance Field_eq_dec : EqDecision Field.
Proof. solve_decision. Defined.

(** The two arguments [(field, value)] of [debouncedChangeSearchOption]. *)
Inductive Update :=
  | SetQuery (value : option string)
  | SetGrades (value : list Z)
  | SetDays (value : list string)
  | SetTimes (value : list Z)
  | SetMajors (value : list string)
  | SetCredits (value : CreditsValue).

#[global] Instance Update_eq_dec : EqDecision Update.
Proof. solve_decision. Defined.

Definition field_of (u : Update) : Field :=
  match u with
  | SetQuery _ => Fquery
  | SetGrades _ => Fgrades
  | SetDays _ => Fdays
  | SetTimes _ => Ftimes
  | SetMajors _ => Fmajors
  | SetCredits _ => Fcredits
  end.

(** [{ ...prev, [field]: value }] *)
Definition set_field (u : Update) (prev : SearchOption) : SearchOption :=
  match u with
  | SetQuery v =>
      {| query := v; grades := grades prev; days := days prev;
         times := times prev; majors := majors prev;
         opt_credits := opt_credits prev |}
  | SetGrades v =>
      {| query := query prev; grades := v; days := days prev;
         times := times prev; majors := majors prev;
         opt_credits := opt_credits prev |}
  | SetDays v =>
      {| query := query prev; grades := grades prev; days := v;
         times := times prev; majors := majors prev;
         opt_credits := opt_credits prev |}
  | SetTimes v =>
      {| query := query prev; grades := grades prev; days := days prev;
         times := v; majors := majors prev;
         opt_credits := opt_credits prev |}
  | SetMajors v =>
      {| query := query prev; grades := grades prev; days := days prev;
         times := times prev; majors := v;
         opt_credits := opt_credits prev |}
  | SetCredits v =>
      {| query := query prev; grades := grades prev; days := days prev;
         times := times prev; majors := majors prev;
         opt_credits := v |}
  end.

(** [prev[field]], paired with the field it was read from. *)
Definition get_field (f : Field) (o : SearchOption) : Update :=
  match f with
  | Fquery => SetQuery (query o)
  | Fgrades => SetGrades (grades o)
  | Fdays => SetDays (days o)
  | Ftimes => SetTimes (times o)
  | Fmajors => SetMajors (majors o)
  | Fcredits => SetCredits (opt_credits o)
  end.

(** The function handed to [debounce]: what one commit does.  The call
    [loaderWrapperRef.current?.scrollTo(0, 0)] only moves the scroll bar. *)
Definition changeSearchOption (u : Update) (d : Dialog) : Dialog :=
  setSearchOptions (set_field u) (setPage (λ _, 1) d).

(** The effect on [searchInfo]. *)
Definition searchInfo_effect (searchInfo : option SearchInfo) (d : Dialog) : Dialog :=
  let days' :=
    match searchInfo ≫= info_day with
    | Some d => if JS.truthy_string d then [d] else []
    | None => []
    end in
  let times' :=
    match searchInfo ≫= info_time with
    | Some t => if JS.truthy_number t then [t] else []
    | None => []
    end in
  setPage (λ _, 1)
    (setSearchOptions
       (λ prev,
          {| query := query prev; grades := grades prev; days := days';
             times := times'; majors := majors prev;
             opt_credits := opt_credits prev |}) d).

(** [(prev) => Math.min(lastPage, prev + 1)] *)
Definition advance (lastPage : Z) (prev : Z) : Z := Z.min lastPage (prev + 1).

(** The [IntersectionObserver] callback:
    [if (entries[0].isIntersecting) setPage(...)]. *)
Definition observer_callback (isIntersecting : bool) (d : Dialog) : Dialog :=
  if isIntersecting then setPage (advance (currentLastPage d)) d else d.

(** The mount effect with its load run to the end in one piece: reuse a
    non-empty cache, otherwise fetch and store.  The source stores in the
    callback handed to [then], after the load has settled; [mount_started]
    and [load_settled] below are the two halves, for the runs in which
    something happens in between. *)
Definition mount_effect (net : Network) (d : Dialog) : Eff Dialog :=
  if (0 <? length (lecturesCache d))%nat
  then mret (setLectures (lecturesCache d) d)
  else
    results ← fetchAllLectures net;
    mret (setLectures results (setLecturesCache results d)).

(** [times.sort((a, b) => a - b)]: the integers in ascending order.  The
    ascending arrangement of a list of integers is unique, so every correct
    sort returns this list. *)
Definition sort_ascending (times : list Z) : list Z := merge_sort Z.le times.

(** The render sorts [searchOptions.times] in place before it draws the
    tags, so the array held in the state is sorted from then on. *)
Definition render_sorts_times (searchOptions : SearchOption) : SearchOption :=
  {| query := query searchOptions; grades := grades searchOptions;
     days := days searchOptions;
     times := sort_ascending (times searchOptions);
     majors := majors searchOptions;
     opt_credits := opt_credits searchOptions |}.

(** What a render leaves in the state.  The only write a render makes is the
    sort above: the array under [searchOptions.times] is sorted where it
    lies. *)
Definition render (d : Dialog) : Dialog := setSearchOptions render_sorts_times d.

(** The value the criteria hold for an update once the next render is done:
    the times in ascending order, every other value as it was passed. *)
Definition rendered_update (u : Update) : Update :=
  match u with
  | SetTimes value => SetTimes (sort_ascending value)
  | _ => u
  end.

(** [fetchAllLectures] up to its [await]: the start line is written and the
    two requests are on their way. *)
Definition fetch_started (net : Network) : Eff unit :=
  console_log "API 호출 시작:" (startTime net).

(** [fetchAllLectures] from its [await] on, once the requests have settled. *)
Definition fetch_settled (net : Network) : Eff (list Lecture) :=
  try_catch
    ('(majorsData, liberalArtsData) ← promise_all net;
     console_log "API 호출 완료:" (endTime net);;
     console_log "소요 시간(ms):" (endTime net - startTime net);;
     let allLectures := majorsData ++ liberalArtsData in
     mret (uniqueLectures allLectures))
    (λ error,
     console_error "강의 데이터 로딩 실패:" error;;
     mret []).

(** *** Schedule export *)

(** The updater handed to [setSchedulesMap]:
    [{ ...prev, [tableId]: [...prev[tableId], ...schedules] }].
    Spreading [prev[tableId]] when the key is missing spreads [undefined],
    which throws a [TypeError].  Keys are table ids; names that every object
    inherits, such as [constructor], are not considered. *)
Definition schedulesMap_updater (tableId : string) (schedules : list Schedule)
    (prev : gmap string (list Schedule)) : Outcome (gmap string (list Schedule)) :=
  match prev !! tableId with
  | Some existing => Returned (<[tableId := existing ++ schedules]> prev)
  | None => Thrown (TypeError "prev[tableId] is not iterable")
  end.

(** [addSchedule(lecture)]: the store after the update, and whether
    [onClose()] was called. *)
Definition addSchedule (searchInfo : option SearchInfo) (lecture : Lecture)
    (schedulesMap : gmap string (list Schedule))
    : Outcome (gmap string (list Schedule)) * bool :=
  match searchInfo with
  | None => (Returned schedulesMap, false)
  | Some info =>
      let schedules :=
        (λ s, {| sched_slot := s; sched_lecture := lecture |})
          <$> parseSchedule (schedule lecture) in
      (schedulesMap_updater (tableId info) schedules schedulesMap, true)
  end.

(** *** The event loop around the component

    [debounce] keeps one variable, [timeout], and talks to the timer table of
    the host through [setTimeout] and [clearTimeout].  Time is counted in
    milliseconds.  Timers are kept oldest first; every timer is armed with the
    same delay, so this is also the order in which they come due. *)

Record Timer := mkTimer {
  timer_id : nat;
  deadline : nat;
  timer_args : Update;
}.

Record World := mkWorld {
  dialog : Dialog;
  console : list LogEntry;
  clock : nat;
  timers : list Timer;
  next_timer : nat;
  (** [let timeout] of [debounce]; [None] until the first call. *)
  timeout : option nat;
  (** Ghost: the arguments of the commits made so far, oldest first. *)
  commits : list Update;
  (** The loads in flight, oldest first: [fetchAllLectures] has been called
      and its promise has not settled yet. *)
  loading : list Network;
}.

Definition initialWorld : World :=
  {| dialog := initialDialog; console := []; clock := 0; timers := [];
     next_timer := 0; timeout := None; commits := []; loading := [] |}.

(** [clearTimeout(handle)]: unknown and undefined handles are ignored. *)
Definition clearTimeout (handle : option nat) (ts : list Timer) : list Timer :=
  match handle with
  | None => ts
  | Some i => List.filter (λ t, negb (timer_id t =? i)%nat) ts
  end.

(** The function [debounce(func, wait)] returns, called with [args]:
    [clearTimeout(timeout); timeout = setTimeout(() => func(...args), wait)]. *)
Definition debounce (wait : nat) (args : Update) (w : World) : World :=
  let cleared := clearTimeout (timeout w) (timers w) in
  let handle := next_timer w in
  {| dialog := dialog w; console := console w; clock := clock w;
     timers := cleared ++ [mkTimer handle (clock w + wait) args];
     next_timer := S handle;
     timeout := Some handle;
     commits := commits w; loading := loading w |}.

Definition debouncedChangeSearchOption : Update → World → World :=
  debounce 300.

Definition is_due (now : nat) (t : Timer) : bool := (deadline t <=? now)%nat.

(** [ms] milliseconds pass: the timers that have come due run their callback,
    here always [func(...args)] with [func] the commit function, and the
    component renders after each of them.  No other event writes the times
    without sorting them, so the commits alone need the render spelled out. *)
Definition elapse (ms : nat) (w : World) : World :=
  let now := (clock w + ms)%nat in
  let due := List.filter (is_due now) (timers w) in
  {| dialog :=
       foldl (λ d t, render (changeSearchOption (timer_args t) d)) (dialog w) due;
     console := console w; clock := now;
     timers := List.filter (λ t, negb (is_due now t)) (timers w);
     next_timer := next_timer w;
     timeout := timeout w;
     commits := commits w ++ (timer_args <$> due);
     loading := loading w |}.

Definition with_dialog (f : Dialog → Dialog) (w : World) : World :=
  {| dialog := f (dialog w); console := console w; clock := clock w;
     timers := timers w; next_timer := next_timer w; timeout := timeout w;
     commits := commits w; loading := loading w |}.

(** A mount whose load, if one is started, settles before anything else
    happens: the mount effect runs against the console in one piece.  If the
    promise were to reject, [then] would not run and the state would stay as
    it is. *)
Definition mount (net : Network) (w : World) : World :=
  match mount_effect net (dialog w) (console w) with
  | (Returned d, console') =>
      {| dialog := d; console := console'; clock := clock w;
         timers := timers w; next_timer := next_timer w;
         timeout := timeout w; commits := commits w; loading := loading w |}
  | (Thrown _, console') =>
      {| dialog := dialog w; console := console'; clock := clock w;
         timers := timers w; next_timer := next_timer w;
         timeout := timeout w; commits := commits w; loading := loading w |}
  end.

(** The mount effect up to the point where it returns: a cache that is not
    empty is put into the state; otherwise [fetchAllLectures] is called, which
    writes its start line, and the load is in flight. *)
Definition mount_started (net : Network) (w : World) : World :=
  if (0 <? length (lecturesCache (dialog w)))%nat
  then with_dialog (setLectures (lecturesCache (dialog w))) w
  else
    {| dialog := dialog w; console := snd (fetch_started net (console w));
       clock := clock w; timers := timers w; next_timer := next_timer w;
       timeout := timeout w; commits := commits w;
       loading := loading w ++ [net] |}.

(** The load at position [i] of those in flight settles and the callback
    handed to [then] runs: [lecturesCache.current = results;
    setLectures(results)].  It tests nothing: whatever the cache holds by
    then is overwritten. *)
Definition load_settled (i : nat) (w : World) : World :=
  match loading w !! i with
  | None => w
  | Some net =>
      match fetch_settled net (console w) with
      | (Returned results, console') =>
          {| dialog := setLectures results (setLecturesCache results (dialog w));
             console := console'; clock := clock w; timers := timers w;
             next_timer := next_timer w; timeout := timeout w;
             commits := commits w; loading := delete i (loading w) |}
      | (Thrown _, console') =>
          {| dialog := dialog w; console := console'; clock := clock w;
             timers := timers w; next_timer := next_timer w;
             timeout := timeout w; commits := commits w;
             loading := delete i (loading w) |}
      end
  end.

Inductive Event :=
  | Mount (net : Network)
  | SearchInfoChanged (searchInfo : option SearchInfo)
  | Change (u : Update)
  | Intersection (isIntersecting : bool)
  | Elapse (ms : nat)
  | MountStarted (net : Network)
  | LoadSettled (i : nat).

Definition step (w : World) (e : Event) : World :=
  match e with
  | Mount net => mount net w
  | SearchInfoChanged searchInfo => with_dialog (searchInfo_effect searchInfo) w
  | Change u => debouncedChangeSearchOption u w
  | Intersection b => with_dialog (observer_callback b) w
  | Elapse ms => elapse ms w
  | MountStarted net => mount_started net w
  | LoadSettled i => load_settled i w
  end.

Definition run (es : list Event) (w : World) : World := foldl step w es.

Definition reachable (w : World) : Prop := ∃ es, w = run es initialWorld.

(** At most one timer is pending, and [timeout] holds its handle. *)
Definition at_most_one_pending (w : World) : Prop :=
  timers w = [] ∨ ∃ t, timers w = [t] ∧ timeout w = Some (timer_id t).

(** The state right after a call with [args]: one timer, armed just now. *)
Definition just_armed (args : Update) (w : World) : Prop :=
  ∃ handle,
    timers w = [mkTimer handle (clock w + 300) args] ∧ timeout w = Some handle.

(** A burst of calls: the first one, then each further call [gap]
    milliseconds after the one before it. *)
Definition burst (first : Update) (rest : list (nat * Update)) : list Event :=
  Change first :: flat_map (λ '(gap, u), [Elapse gap; Change u]) rest.

Definition last_update (first : Update) (rest : list (nat * Update)) : Update :=
  default first (last (first :: rest.*2)).

End Dialog.

(** ** The rest of the component: derived lists and tag handlers *)

(** [Set]: the values in the order in which they were first added. *)
Module JSSet.

Section Values.
Context {A : Type} `{EqDecision A}.

(** [set.add(x)] *)
Definition add (x : A) (s : list A) : list A :=
  if JS.mem s x then s else s ++ [x].

(** [new Set(values)], read back with [[...set]]. *)
Definition of_values (xs : list A) : list A := foldl (λ s x, add x s) [] xs.
End Values.

End JSSet.

(** [TIME_SLOTS], as pairs of [id] and [label]. *)
Definition TIME_SLOTS : list (Z * string) :=
  [ (1, "09:00~09:30"); (2, "09:30~10:00"); (3, "10:00~10:30");
    (4, "10:30~11:00"); (5, "11:00~11:30"); (6, "11:30~12:00");
    (7, "12:00~12:30"); (8, "12:30~13:00"); (9, "13:00~13:30");
    (10, "13:30~14:00"); (11, "14:00~14:30"); (12, "14:30~15:00");
    (13, "15:00~15:30"); (14, "15:30~16:00"); (15, "16:00~16:30");
    (16, "16:30~17:00"); (17, "17:00~17:30"); (18, "17:30~18:00");
    (19, "18:00~18:50"); (20, "18:55~19:45"); (21, "19:50~20:40");
    (22, "20:45~21:35"); (23, "21:40~22:30"); (24, "22:35~23:25") ].

(** [[...new Set(lectures.map((lecture) => lecture.major))]] *)
Definition allMajors (lectures : list Lecture) : list string :=
  JSSet.of_values (major <$> lectures).

(** The arguments the close button of a time tag passes on:
    [("times", searchOptions.times.filter((v) => v !== time))]. *)
Definition close_time_tag (time : Z) (searchOptions : SearchOption) : Update :=
  SetTimes (List.filter (λ v, negb (v =? time)) (times searchOptions)).

(** The arguments the close button of a major tag passes on:
    [("majors", searchOptions.majors.filter((v) => v !== major))]. *)
Definition close_major_tag (m : string) (searchOptions : SearchOption) : Update :=
  SetMajors (List.filter (λ v, negb (bool_decide (v = m))) (majors searchOptions)).

(** *** The labels of the majors

    A major may carry the separator [<p>]; the tag shows what follows the
    last separator, the check box shows the major with every separator turned
    into a blank. *)

(** The scan behind [String.prototype.split(separator)] for a separator that
    is not empty: [current] is the segment read so far, and after a match the
    next [skip] characters, the rest of the separator, are passed over. *)
Fixpoint split_from (separator : string) (skip : nat) (current : string)
    (s : string) : list string :=
  match s with
  | EmptyString => [current]
  | String c s' =>
      match skip with
      | S k => split_from separator k current s'
      | O =>
          if JS.startsWith s separator
          then current :: split_from separator (String.length separator - 1) "" s'
          else split_from separator 0 (current +:+ String c "") s'
      end
  end.

(** [s.split(separator)]; with the empty separator, one string per
    character. *)
Definition split (s separator : string) : list string :=
  match separator with
  | EmptyString => (λ c, String c "") <$> String.list_ascii_of_string s
  | _ => split_from separator 0 "" s
  end.

(** [major.split("<p>").pop()]; [pop] of an empty array would be
    [undefined], but [split] never returns one here. *)
Definition major_tag_label (m : string) : string :=
  default "" (last (split m "<p>")).

(** Does [/<p>/i] match at the start of [s]?  The pattern has one letter, so
    the two spellings [<p>] and [<P>] are all it matches. *)
Definition p_tag_here (s : string) : bool :=
  JS.startsWith s "<p>" || JS.startsWith s "<P>".

(** The scan behind [s.replace(/<p>/gi, " ")]: every match, found from left
    to right, becomes one blank; [skip] counts the characters of a match
    still to pass over. *)
Fixpoint replace_p_tags_from (skip : nat) (s : string) : string :=
  match s with
  | EmptyString => EmptyString
  | String c s' =>
      match skip with
      | S k => replace_p_tags_from k s'
      | O =>
          if p_tag_here s then " " +:+ replace_p_tags_from 2 s'
          else String c (replace_p_tags_from 0 s')
      end
  end.

(** [major.replace(/<p>/gi, " ")] *)
Definition major_checkbox_label (m : string) : string :=
  replace_p_tags_from 0 m.

(** Calls that are each followed by a pause. *)
Definition paced (calls : list (Update * nat)) : list Event :=
  flat_map (λ '(u, pause), [Change u; Elapse pause]) calls.

(** ** Concrete instances used to run the model *)

Module Sample.

Definition lower_ascii (c : Ascii.ascii) : Ascii.ascii :=
  let n := Ascii.N_of_ascii c in
  if ((65 <=? n) && (n <=? 90))%N then Ascii.ascii_of_N (n + 32) else c.

(** Lower-casing of the ASCII letters; every other character is kept. *)
Fixpoint toLowerCase (s : string) : string :=
  match s with
  | EmptyString => EmptyString
  | String c s' => String (lower_ascii c) (toLowerCase s')
  end.

Fixpoint digits (s : string) : list Z :=
  match s with
  | EmptyString => []
  | String c s' =>
      let n := Ascii.N_of_ascii c in
      if ((48 <=? n) && (n <=? 57))%N then Z.of_N (n - 48) :: digits s'
      else digits s'
  end.

(** A stand-in for [parseSchedule]: the first character is the day label and
    every digit after it is a slot id.  It is not the parser of [./utils.ts];
    it only serves to run the filter on concrete records. *)
Definition parseSchedule (s : string) : list Slot :=
  match s with
  | EmptyString => []
  | String c s' => [ {| day := String c EmptyString; range := digits s' |} ]
  end.

Definition cs101 : Lecture :=
  {| id := "CS101"; title := "Intro to Systems"; grade := 1; credits := "3";
     major := "CS"; schedule := "M12" |}.

Definition cs101' : Lecture :=
  {| id := "CS101"; title := "Systems I"; grade := 1; credits := "3";
     major := "CS"; schedule := "T34" |}.

Definition ma201 : Lecture :=
  {| id := "MA201"; title := "Linear Algebra"; grade := 2; credits := "3.0";
     major := "Math"; schedule := "" |}.

Definition la110 : Lecture :=
  {| id := "LA110"; title := "Writing"; grade := 1; credits := "2";
     major := "Liberal Arts"; schedule := "W5" |}.

(** [n] records with pairwise different identifiers. *)
Definition numbered (n : nat) : list Lecture :=
  (λ i : nat,
     {| id := pretty i; title := "Seminar"; grade := 1; credits := "1";
        major := "CS"; schedule := "" |}) <$> seq 0 n.

Definition empty_options : SearchOption :=
  {| query := Some ""; grades := []; days := []; times := [];
     majors := []; opt_credits := CUndefined |}.

Definition online : Network :=
  {| fetchMajors := Resolved [cs101; ma201];
     fetchLiberalArts := Resolved [cs101'; la110];
     majors_settles_first := true; startTime := 10; endTime := 25 |}.

Definition offline : Network :=
  {| fetchMajors := Resolved [cs101; ma201];
     fetchLiberalArts := Rejected (NetworkError "Network Error");
     majors_settles_first := true; startTime := 10; endTime := 25 |}.

End Sample.

(** * Properties *)

(** ** [Map] *)

Section MapFacts.
Context {K V : Type} `{EqDecision K}.
Implicit Types (k : K) (v : V) (m es : list (K * V)).

Lemma get_set_eq k v m : JS.get k (JS.set k v m) = Some v.
Proof.
  induction m as [|[k' v'] m IH]; simpl.
  - by destruct (decide (k = k)).
  - destruct (decide (k' = k)) as [->|Hne]; simpl.
    + by destruct (decide (k = k)).
    + by destruct (decide (k' = k)).
Qed.

Lemma get_set_ne k k' v m : k ≠ k' → JS.get k' (JS.set k v m) = JS.get k' m.
Proof.
  intros Hne. induction m as [|[k0 v0] m IH]; simpl.
  - by destruct (decide (k = k')).
  - destruct (decide (k0 = k)) as [->|Hk0]; simpl.
    + by destruct (decide (k = k')).
    + destruct (decide (k0 = k')); [done | apply IH].
Qed.

Lemma keys_set k v m :
  (JS.set k v m).*1 = if decide (k ∈ m.*1) then m.*1 else m.*1 ++ [k].
Proof.
  induction m as [|[k' v'] m IH].
  - destruct (decide (k ∈ [].*1)) as [Hin|]; [by apply elem_of_nil in Hin | done].
  - cbn [JS.set]. rewrite !fmap_cons. cbn [fst].
    destruct (decide (k' = k)) as [->|Hne].
    + rewrite fmap_cons. cbn [fst].
      destruct (decide (k ∈ k :: m.*1)) as [|Hnin]; [done |].
      destruct Hnin. left.
    + rewrite fmap_cons, IH. cbn [fst].
      destruct (decide (k ∈ m.*1)) as [Hin|Hin].
      * destruct (decide (k ∈ k' :: m.*1)) as [|Hnin]; [done |].
        destruct Hnin. by right.
      * destruct (decide (k ∈ k' :: m.*1)) as [Hin'|]; [| done].
        apply elem_of_cons in Hin' as [?|?]; [congruence | done].
Qed.

Lemma keys_set_NoDup k v m : NoDup m.*1 → NoDup (JS.set k v m).*1.
Proof.
  intros Hm. rewrite keys_set. case_decide; [done |].
  apply NoDup_app. split_and!; [done | | apply NoDup_singleton].
  intros x Hx Hk%list_elem_of_singleton. by subst.
Qed.


Lemma of_entries_snoc es k v :
  JS.of_entries (es ++ [(k, v)]) = JS.set k v (JS.of_entries es).
Proof. unfold JS.of_entries. by rewrite foldl_snoc. Qed.

Lemma of_entries_NoDup es : NoDup (JS.of_entries es).*1.
Proof.
  induction es as [|[k v] es IH] using rev_ind.
  - apply NoDup_nil_2.
  - rewrite of_entries_snoc. by apply keys_set_NoDup.
Qed.


(** The value kept under a key is the one of its last entry. *)
Lemma of_entries_get es k v :
  JS.get k (JS.of_entries es) = Some v ↔
  ∃ es1 es2, es = es1 ++ (k, v) :: es2 ∧ k ∉ es2.*1.
Proof.
  revert v. induction es as [|[k' v'] es IH] using rev_ind; intros v.
  - split; [done |]. intros (es1 & es2 & Heq & _). by destruct es1.
  - rewrite of_entries_snoc. destruct (decide (k' = k)) as [->|Hne].
    + rewrite get_set_eq. split.
      * intros [= ->]. exists es, []. split; [done | apply not_elem_of_nil].
      * intros (es1 & es2 & Heq & Hnin).
        destruct es2 as [|e es2 _] using rev_ind.
        -- apply app_inj_tail in Heq as [_ Hkv]. congruence.
        -- rewrite app_comm_cons, app_assoc in Heq.
           apply app_inj_tail in Heq as [_ <-].
           destruct Hnin. rewrite fmap_app, elem_of_app. right. left.
    + rewrite get_set_ne by done. rewrite IH. split.
      * intros (es1 & es2 & -> & Hnin). exists es1, (es2 ++ [(k', v')]).
        split; [by rewrite <- app_assoc |].
        rewrite fmap_app, elem_of_app. intros [?|Hk]; [done |].
        apply list_elem_of_singleton in Hk. simpl in Hk. congruence.
      * intros (es1 & es2 & Heq & Hnin).
        destruct es2 as [|e es2 _] using rev_ind.
        -- apply app_inj_tail in Heq as [_ Hkv]. congruence.
        -- rewrite app_comm_cons, app_assoc in Heq.
           apply app_inj_tail in Heq as [-> <-].
           exists es1, es2. split; [done |].
           intros Hin. destruct Hnin. rewrite fmap_app, elem_of_app. by left.
Qed.


Lemma elem_get_Some k v m : NoDup m.*1 → (k, v) ∈ m → JS.get k m = Some v.
Proof.
  induction m as [|[k' v'] m IH]; simpl; [by intros _ ?%elem_of_nil |].
  intros [Hk' Hm]%NoDup_cons [[= -> ->]|Hin]%elem_of_cons.
  - by destruct (decide (k' = k')).
  - destruct (decide (k' = k)) as [->|]; [| auto].
    destruct Hk'. apply list_elem_of_fmap. by exists (k, v).
Qed.

End MapFacts.

(** ** Catalog loader *)

Section Loader.
Implicit Types (r : Lecture) (all A B : list Lecture).

Local Abbreviation entries all := ((λ lecture, (id lecture, lecture)) <$> all).

Lemma entries_keys all : (entries all).*1 = id <$> all.
Proof. by rewrite <- list_fmap_compose. Qed.

Lemma entries_split all (k : string) r es1 es2 :
  entries all = es1 ++ (k, r) :: es2 →
  ∃ l1 l2, all = l1 ++ r :: l2 ∧ k = id r ∧ es2 = entries l2.
Proof.
  intros Heq.
  apply fmap_app_inv in Heq as (l1 & l2' & _ & Heq & ->).
  symmetry in Heq.
  apply fmap_cons_inv in Heq as (r' & l2 & Hkr & -> & ->).
  injection Hkr as -> ->. by exists l1, l2.
Qed.

(** Every entry of the map is filed under the identifier of its record. *)
Lemma map_entry_key all (k : string) r :
  (k, r) ∈ JS.of_entries (entries all) → k = id r.
Proof.
  intros Hin. apply (elem_get_Some _ _ _ (of_entries_NoDup _)) in Hin.
  apply of_entries_get in Hin as (es1 & es2 & Heq & _).
  by apply entries_split in Heq as (? & ? & _ & ? & _).
Qed.

Lemma keyed_values_ids (m : list (string * Lecture)) :
  Forall (λ e, e.1 = id e.2) m → id <$> m.*2 = m.*1.
Proof.
  induction 1 as [|[k r] m Hk _ IH]; [done |].
  rewrite !fmap_cons, IH. simpl in *. by rewrite Hk.
Qed.

Lemma uniqueLectures_ids all :
  id <$> uniqueLectures all = (JS.of_entries (entries all)).*1.
Proof.
  unfold uniqueLectures, JS.values. apply keyed_values_ids.
  apply Forall_forall. intros [k r] Hin. by apply map_entry_key in Hin.
Qed.


Lemma uniqueLectures_NoDup all : NoDup (id <$> uniqueLectures all).
Proof. rewrite uniqueLectures_ids. apply of_entries_NoDup. Qed.






Lemma promise_all_rejected (net : Network) (console : list LogEntry) :
  (∃ e, fetchMajors net = Rejected e) ∨ (∃ e, fetchLiberalArts net = Rejected e) →
  ∃ error,
    promise_all net console = (Thrown error, console)
    ∧ (fetchMajors net = Rejected error ∨ fetchLiberalArts net = Rejected error).
Proof.
  unfold promise_all.
  destruct (fetchMajors net) as [a|e1], (fetchLiberalArts net) as [b|e2];
    intros [[e He]|[e He]]; try discriminate.
  - exists e2. eauto.
  - exists e1. eauto.
  - exists (if majors_settles_first net then e1 else e2).
    split; [done |]. destruct (majors_settles_first net); eauto.
  - exists (if majors_settles_first net then e1 else e2).
    split; [done |]. destruct (majors_settles_first net); eauto.
Qed.

(** C8: when one of the two requests is rejected, [fetchAllLectures] returns
    the empty catalog and throws nothing; what it writes to the console is the
    start line followed by one error line carrying the reason of a rejected
    request; and a dialog mounted with an empty cache then holds no lecture,
    neither in its state nor in its cache. *)
Theorem failed_fetch_yields_empty_catalog
    (net : Network) (console : list LogEntry) (d : Dialog) :
  (∃ e, fetchMajors net = Rejected e) ∨ (∃ e, fetchLiberalArts net = Rejected e) →
  lecturesCache d = [] →
  ∃ error,
    (fetchMajors net = Rejected error ∨ fetchLiberalArts net = Rejected error)
    ∧ fetchAllLectures net console
      = (Returned [],
         console ++ [ConsoleLog "API 호출 시작:" (startTime net);
                     ConsoleError "강의 데이터 로딩 실패:" error])
    ∧ ∃ d', fst (mount_effect net d console) = Returned d'
            ∧ lectures d' = [] ∧ lecturesCache d' = [].
Proof.
  intros Hfail Hcache.
  destruct (promise_all_rejected net
              (console ++ [ConsoleLog "API 호출 시작:" (startTime net)]) Hfail)
    as (error & Hall & Hwhich).
  assert (fetchAllLectures net console
          = (Returned [],
             console ++ [ConsoleLog "API 호출 시작:" (startTime net);
                         ConsoleError "강의 데이터 로딩 실패:" error])) as Hfetch.
  { unfold fetchAllLectures, mbind, Eff_bind, try_catch, console_log,
      console_error, mret, Eff_ret.
    rewrite Hall. by rewrite <- app_assoc. }
  exists error. split_and!; [done | done |].
  unfold mount_effect. rewrite Hcache. simpl.
  unfold mbind, Eff_bind. rewrite Hfetch. simpl. eauto.
Qed.

Lemma failed_fetch_yields_empty_catalog_witness :
  ∃ error,
    (fetchMajors Sample.offline = Rejected error
     ∨ fetchLiberalArts Sample.offline = Rejected error)
    ∧ fetchAllLectures Sample.offline []
      = (Returned [],
         [] ++ [ConsoleLog "API 호출 시작:" (startTime Sample.offline);
                ConsoleError "강의 데이터 로딩 실패:" error])
    ∧ ∃ d', fst (mount_effect Sample.offline initialDialog []) = Returned d'
            ∧ lectures d' = [] ∧ lecturesCache d' = [].
Proof.
  apply (failed_fetch_yields_empty_catalog Sample.offline [] initialDialog).
  - right. eexists. reflexivity.
  - reflexivity.
Defined.

End Loader.

(** ** Filter engine *)

Lemma startsWith_empty (s : string) : JS.startsWith s "" = true.
Proof. by destruct s. Qed.

Lemma includes_empty (s : string) : JS.includes s "" = true.
Proof. destruct s; simpl; by rewrite ?startsWith_empty. Qed.

Lemma List_filter_all {A} (f : A → bool) (l : list A) :
  (∀ x, f x = true) → List.filter f l = l.
Proof.
  intros Hf. induction l as [|x l IH]; [done |].
  simpl. by rewrite Hf, IH.
Qed.

Lemma elem_of_List_filter {A} (f : A → bool) (l : list A) (x : A) :
  x ∈ List.filter f l ↔ x ∈ l ∧ f x = true.
Proof. rewrite !list_elem_of_In. apply filter_In. Qed.

Lemma mem_true `{EqDecision A} (xs : list A) (x : A) :
  JS.mem xs x = true ↔ x ∈ xs.
Proof.
  unfold JS.mem. rewrite existsb_exists. split.
  - intros (y & Hy%list_elem_of_In & Heq%bool_decide_eq_true). by subst.
  - intros Hx. exists x. split; [by apply list_elem_of_In |].
    by apply bool_decide_eq_true.
Qed.

Section Filter.
Variable toLowerCase : string → string.
Variable parseSchedule : string → list Slot.
Hypothesis toLowerCase_empty : toLowerCase "" = "".

Local Abbreviation filtered := (filteredLectures toLowerCase parseSchedule).

(** Every record that passes the filter chain passes each of its stages. *)
Lemma filteredLectures_elem (o : SearchOption) (ls : list Lecture) (r : Lecture) :
  r ∈ filtered o ls ↔
  r ∈ ls
  ∧ matches_query toLowerCase (toLowerCase (default "" (query o))) r = true
  ∧ matches_grades (grades o) r = true
  ∧ matches_majors (majors o) r = true
  ∧ matches_credits (opt_credits o) r = true
  ∧ matches_days parseSchedule (days o) r = true
  ∧ matches_times parseSchedule (times o) r = true.
Proof. unfold filteredLectures. rewrite !elem_of_List_filter. tauto. Qed.

(** C2: with an empty or absent query, empty grade, day, time and major sets
    and a credit filter that is absent (or falsy: [0] or the empty string),
    the filter returns the catalog unchanged, element for element and in
    order. *)
Theorem filter_with_empty_criteria_is_identity
    (o : SearchOption) (ls : list Lecture) :
  default "" (query o) = "" →
  grades o = [] → days o = [] → times o = [] → majors o = [] →
  truthy_credits (opt_credits o) = false →
  filtered o ls = ls.
Proof using toLowerCase_empty.
  intros Hq Hg Hd Ht Hm Hc. unfold filteredLectures.
  rewrite Hq, Hg, Hd, Ht, Hm, toLowerCase_empty.
  rewrite (List_filter_all (matches_query _ _)).
  2:{ intros r. unfold matches_query. by rewrite includes_empty. }
  rewrite (List_filter_all (matches_grades _)) by done.
  rewrite (List_filter_all (matches_majors _)) by done.
  rewrite (List_filter_all (matches_credits _)).
  2:{ intros r. unfold matches_credits. by rewrite Hc. }
  rewrite (List_filter_all (matches_days _ _)) by done.
  by rewrite (List_filter_all (matches_times _ _)) by done.
Qed.

(** C3: when the day set is not empty, every record of the filtered view has
    a non-empty schedule encoding, and parsing it gives at least one slot
    whose day is in the day set. *)
Theorem day_filter_keeps_only_matching_schedules
    (o : SearchOption) (ls : list Lecture) (r : Lecture) :
  days o ≠ [] →
  r ∈ filtered o ls →
  schedule r ≠ ""
  ∧ ∃ s, s ∈ parseSchedule (schedule r) ∧ day s ∈ days o.
Proof using Type.
  intros Hdays (_ & _ & _ & _ & _ & Hd & _)%filteredLectures_elem.
  unfold matches_days in Hd.
  assert ((length (days o) =? 0)%nat = false) as Hlen
    by (by destruct (days o)).
  rewrite Hlen in Hd. unfold JS.some in Hd. apply existsb_exists in Hd as (s & Hs & Hmem).
  apply mem_true in Hmem. unfold schedules_of in Hs.
  destruct (schedule r) as [|c rest] eqn:Esch; simpl in Hs; [done |].
  split; [done |]. exists s. split; [by apply list_elem_of_In | done].
Qed.

End Filter.

Lemma filter_with_empty_criteria_is_identity_witness :
  filteredLectures Sample.toLowerCase Sample.parseSchedule Sample.empty_options
    [Sample.cs101; Sample.ma201; Sample.la110]
  = [Sample.cs101; Sample.ma201; Sample.la110].
Proof.
  apply (filter_with_empty_criteria_is_identity
           Sample.toLowerCase Sample.parseSchedule eq_refl);
    reflexivity.
Defined.

Example filter_by_day :
  filteredLectures Sample.toLowerCase Sample.parseSchedule
    (set_field (SetDays ["M"; "W"]) Sample.empty_options)
    [Sample.cs101; Sample.ma201; Sample.la110]
  = [Sample.cs101; Sample.la110].
Proof. reflexivity. Qed.

Example filter_by_query_any_case :
  filteredLectures Sample.toLowerCase Sample.parseSchedule
    (set_field (SetQuery (Some "InTrO")) Sample.empty_options)
    [Sample.cs101; Sample.ma201; Sample.la110]
  = [Sample.cs101].
Proof. reflexivity. Qed.

Example filter_by_grade :
  filteredLectures Sample.toLowerCase Sample.parseSchedule
    (set_field (SetGrades [2; 3; 4]) Sample.empty_options)
    [Sample.cs101; Sample.ma201; Sample.la110]
  = [Sample.ma201].
Proof. reflexivity. Qed.

Example filter_by_time :
  filteredLectures Sample.toLowerCase Sample.parseSchedule
    (set_field (SetTimes [1]) Sample.empty_options)
    [Sample.cs101; Sample.ma201; Sample.la110]
  = [Sample.cs101].
Proof. reflexivity. Qed.

Example filter_by_credits :
  filteredLectures Sample.toLowerCase Sample.parseSchedule
    (set_field (SetCredits (CString "3")) Sample.empty_options)
    [Sample.cs101; Sample.ma201; Sample.la110]
  = [Sample.cs101; Sample.ma201].
Proof. reflexivity. Qed.

Lemma day_filter_keeps_only_matching_schedules_witness :
  schedule Sample.cs101 ≠ ""
  ∧ ∃ s, s ∈ Sample.parseSchedule (schedule Sample.cs101)
         ∧ day s ∈ ["M"; "W"].
Proof.
  apply (day_filter_keeps_only_matching_schedules
           Sample.toLowerCase Sample.parseSchedule
           (set_field (SetDays ["M"; "W"]) Sample.empty_options)
           [Sample.cs101; Sample.ma201; Sample.la110] Sample.cs101).
  - discriminate.
  - rewrite filter_by_day. left.
Defined.

(** ** Pagination *)

Lemma ceil_div_bounds (a b : Z) :
  0 < b → b * (JS.ceil_div a b - 1) < a ≤ b * JS.ceil_div a b.
Proof.
  intros Hb. unfold JS.ceil_div.
  pose proof (Z.div_mod (- a) b ltac:(lia)) as Hdm.
  pose proof (Z.mod_pos_bound (- a) b Hb). lia.
Qed.



Lemma lastPage_pos (view : list Lecture) : view ≠ [] → 1 ≤ lastPage view.
Proof.
  intros Hview. unfold lastPage.
  pose proof (ceil_div_bounds (Z.of_nat (length view)) PAGE_SIZE eq_refl).
  destruct view; [done |]. simpl length in *. unfold PAGE_SIZE in *. lia.
Qed.

Lemma slice0_nonneg {A} (xs : list A) (e : Z) :
  0 ≤ e → JS.slice0 xs e = take (Z.to_nat e) xs.
Proof.
  intros He. unfold JS.slice0.
  destruct (e <? 0) eqn:Hneg; [lia |].
  destruct (decide (e ≤ Z.of_nat (length xs))) as [Hle|Hgt].
  - by rewrite Z.min_l.
  - rewrite Z.min_r by lia. rewrite Nat2Z.id.
    rewrite !take_ge; [done | lia | lia].
Qed.

Lemma visibleLectures_length (view : list Lecture) (p : Z) :
  0 ≤ p →
  Z.of_nat (length (visibleLectures view p))
  = Z.min (p * PAGE_SIZE) (Z.of_nat (length view)).
Proof.
  intros Hp. unfold visibleLectures.
  rewrite slice0_nonneg by (unfold PAGE_SIZE; lia).
  rewrite length_take. unfold PAGE_SIZE. lia.
Qed.

(** C5 as stated fails: of a view of 250 records the window at page 3 holds
    all 250 of them, not 50. *)
Lemma window_at_page_3_is_not_50 :
  length (Sample.numbered 250) = 250%nat
  ∧ length (visibleLectures (Sample.numbered 250) 3) = 250%nat
  ∧ length (visibleLectures (Sample.numbered 250) 3) ≠ 50%nat.
Proof. split_and!; [by vm_compute | by vm_compute | by vm_compute]. Qed.

(** C5, amended: the last page is the ceiling of [n / 100], and at a page
    [p >= 0] the window is the first [min (p * 100) n] records of the view;
    for [n = 250] the last page is 3, the window at page 1 holds 100 records
    and the window at page 3 holds all 250. *)
Theorem pagination_window_is_growing_prefix (view : list Lecture) (p : Z) :
  0 ≤ p →
  let n := Z.of_nat (length view) in
  (PAGE_SIZE * (lastPage view - 1) < n ≤ PAGE_SIZE * lastPage view)
  ∧ visibleLectures view p = take (Z.to_nat (Z.min (p * PAGE_SIZE) n)) view
  ∧ Z.of_nat (length (visibleLectures view p)) = Z.min (p * PAGE_SIZE) n
  ∧ (n = 250 →
     lastPage view = 3
     ∧ length (visibleLectures view 1) = 100%nat
     ∧ length (visibleLectures view 3) = 250%nat).
Proof.
  intros Hp n. split; [by apply ceil_div_bounds |]. split_and!.
  - unfold visibleLectures. rewrite slice0_nonneg by (unfold PAGE_SIZE; lia).
    destruct (decide (p * PAGE_SIZE ≤ n)) as [Hle|Hgt].
    + by rewrite Z.min_l.
    + rewrite Z.min_r by lia. subst n. rewrite Nat2Z.id.
      rewrite !take_ge; [done | lia | lia].
  - by apply visibleLectures_length.
  - intros Hn.
    pose proof (ceil_div_bounds n PAGE_SIZE eq_refl) as Hceil.
    pose proof (visibleLectures_length view 1 ltac:(lia)) as H1.
    pose proof (visibleLectures_length view 3 ltac:(lia)) as H3.
    fold n in H1, H3. unfold lastPage. fold n.
    unfold PAGE_SIZE in *. lia.
Qed.

Lemma pagination_window_is_growing_prefix_witness :
  lastPage (Sample.numbered 250) = 3
  ∧ length (visibleLectures (Sample.numbered 250) 1) = 100%nat
  ∧ length (visibleLectures (Sample.numbered 250) 3) = 250%nat.
Proof.
  apply (pagination_window_is_growing_prefix (Sample.numbered 250) 2);
    [lia | by vm_compute].
Defined.

(** C6: the observer callback, when the sentinel intersects, replaces the page
    [p] by [min L (p + 1)] where [L] is the last page; so a page that already
    equals the last page stays as it is.  When the sentinel does not
    intersect, nothing changes. *)
Theorem advance_moves_to_min_of_last_page_and_next
    (toLowerCase : string → string) (parseSchedule : string → list Slot)
    (d : Dialog) (L p : Z) :
  advance L p = Z.min L (p + 1)
  ∧ advance L L = L
  ∧ page (observer_callback toLowerCase parseSchedule true d)
    = Z.min (currentLastPage toLowerCase parseSchedule d) (page d + 1)
  ∧ (page d = currentLastPage toLowerCase parseSchedule d →
     page (observer_callback toLowerCase parseSchedule true d) = page d)
  ∧ observer_callback toLowerCase parseSchedule false d = d.
Proof.
  unfold advance. split_and!; [done | lia | done | | done].
  intros Heq. simpl. unfold advance. lia.
Qed.

Lemma advance_moves_to_min_of_last_page_and_next_witness :
  page (observer_callback Sample.toLowerCase Sample.parseSchedule true
          (setLectures [Sample.cs101] initialDialog)) = 1.
Proof.
  apply (advance_moves_to_min_of_last_page_and_next
           Sample.toLowerCase Sample.parseSchedule
           (setLectures [Sample.cs101] initialDialog) 3 3).
  reflexivity.
Defined.

(** ** Debounced option updates *)

Lemma sort_ascending_sorted (ts : list Z) : Sorted Z.le (sort_ascending ts).
Proof. apply (Sorted_merge_sort Z.le). Qed.

Lemma sort_ascending_elem (ts : list Z) (t : Z) :
  t ∈ sort_ascending ts ↔ t ∈ ts.
Proof. unfold sort_ascending. by rewrite (merge_sort_Permutation Z.le). Qed.

(** Sorting a list that is in ascending order already gives it back. *)
Lemma sort_ascending_fixed (ts : list Z) :
  Sorted Z.le ts → sort_ascending ts = ts.
Proof.
  intros Hts. apply (Sorted_unique Z.le); [apply sort_ascending_sorted | done |].
  apply (merge_sort_Permutation Z.le).
Qed.

Lemma render_fixed (d : Dialog) :
  Sorted Z.le (times (searchOptions d)) → render d = d.
Proof.
  destruct d as [ls p [q g ds ts ms c] cache]. simpl. intros Hts.
  unfold render, setSearchOptions, render_sorts_times. simpl.
  by rewrite sort_ascending_fixed.
Qed.

Lemma render_times_sorted (d : Dialog) :
  Sorted Z.le (times (searchOptions (render d))).
Proof. apply sort_ascending_sorted. Qed.

Lemma mount_started_frame (net : Network) (w : World) :
  timers (mount_started net w) = timers w
  ∧ timeout (mount_started net w) = timeout w
  ∧ next_timer (mount_started net w) = next_timer w
  ∧ clock (mount_started net w) = clock w
  ∧ commits (mount_started net w) = commits w
  ∧ page (dialog (mount_started net w)) = page (dialog w)
  ∧ searchOptions (dialog (mount_started net w)) = searchOptions (dialog w).
Proof.
  unfold mount_started.
  by destruct (0 <? length (lecturesCache (dialog w)))%nat.
Qed.

Lemma load_settled_frame (i : nat) (w : World) :
  timers (load_settled i w) = timers w
  ∧ timeout (load_settled i w) = timeout w
  ∧ next_timer (load_settled i w) = next_timer w
  ∧ clock (load_settled i w) = clock w
  ∧ commits (load_settled i w) = commits w
  ∧ page (dialog (load_settled i w)) = page (dialog w)
  ∧ searchOptions (dialog (load_settled i w)) = searchOptions (dialog w).
Proof.
  unfold load_settled. destruct (loading w !! i) as [net|]; [| done].
  by destruct (fetch_settled net (console w)) as [[results|e] console'].
Qed.

Section Engine.
Variable toLowerCase : string → string.
Variable parseSchedule : string → list Slot.

Local Abbreviation step' := (step toLowerCase parseSchedule).
Local Abbreviation run' := (run toLowerCase parseSchedule).
Local Abbreviation reachable' := (reachable toLowerCase parseSchedule).

Lemma run_app (es1 es2 : list Event) (w : World) :
  run' (es1 ++ es2) w = run' es2 (run' es1 w).
Proof. apply foldl_app. Qed.

Lemma run_snoc (es : list Event) (e : Event) (w : World) :
  run' (es ++ [e]) w = step' (run' es w) e.
Proof. apply foldl_snoc. Qed.

(** A call cancels the pending timer, if there is one, and arms a new one. *)
Lemma debounce_rearms (wait : nat) (u : Update) (w : World) :
  at_most_one_pending w →
  debounce wait u w
  = {| dialog := dialog w; console := console w; clock := clock w;
       timers := [mkTimer (next_timer w) (clock w + wait) u];
       next_timer := S (next_timer w); timeout := Some (next_timer w);
       commits := commits w; loading := loading w |}.
Proof.
  intros [Hnone|(t & Hone & Hhandle)]; unfold debounce; f_equal.
  - rewrite Hnone. by destruct (timeout w).
  - rewrite Hone, Hhandle. simpl. by rewrite Nat.eqb_refl.
Qed.

Lemma elapse_before_deadline (ms : nat) (t : Timer) (w : World) :
  timers w = [t] → (clock w + ms < deadline t)%nat →
  elapse ms w
  = {| dialog := dialog w; console := console w; clock := clock w + ms;
       timers := [t]; next_timer := next_timer w; timeout := timeout w;
       commits := commits w; loading := loading w |}.
Proof.
  intros Ht Hlt. unfold elapse. rewrite Ht. simpl. unfold is_due.
  destruct (Nat.leb_spec (deadline t) (clock w + ms)) as [?|_]; [lia |].
  simpl. by rewrite app_nil_r.
Qed.

Lemma elapse_after_deadline (ms : nat) (t : Timer) (w : World) :
  timers w = [t] → (deadline t ≤ clock w + ms)%nat →
  elapse ms w
  = {| dialog := render (changeSearchOption (timer_args t) (dialog w));
       console := console w; clock := clock w + ms;
       timers := []; next_timer := next_timer w; timeout := timeout w;
       commits := commits w ++ [timer_args t]; loading := loading w |}.
Proof.
  intros Ht Hle. unfold elapse. rewrite Ht. simpl. unfold is_due.
  destruct (Nat.leb_spec (deadline t) (clock w + ms)) as [_|?]; [| lia].
  done.
Qed.

Lemma elapse_idle (ms : nat) (w : World) :
  timers w = [] →
  elapse ms w
  = {| dialog := dialog w; console := console w; clock := clock w + ms;
       timers := []; next_timer := next_timer w; timeout := timeout w;
       commits := commits w; loading := loading w |}.
Proof. intros Ht. unfold elapse. rewrite Ht. simpl. by rewrite app_nil_r. Qed.

Lemma step_at_most_one_pending (w : World) (e : Event) :
  at_most_one_pending w → at_most_one_pending (step' w e).
Proof.
  intros Hw. destruct e as [net|info|u|b|ms|net|i]; simpl.
  - unfold mount. by destruct (mount_effect net (dialog w) (console w)) as [[]].
  - done.
  - unfold debouncedChangeSearchOption. rewrite debounce_rearms by done.
    right. by eexists.
  - done.
  - destruct Hw as [Hnone|(t & Hone & Hhandle)].
    + rewrite elapse_idle by done. by left.
    + destruct (decide (deadline t ≤ clock w + ms)%nat).
      * rewrite (elapse_after_deadline ms t) by done. by left.
      * rewrite (elapse_before_deadline ms t) by (done || lia).
        right. by exists t.
  - destruct (mount_started_frame net w) as (Ht & Hto & _).
    unfold at_most_one_pending. by rewrite Ht, Hto.
  - destruct (load_settled_frame i w) as (Ht & Hto & _).
    unfold at_most_one_pending. by rewrite Ht, Hto.
Qed.

Lemma reachable_at_most_one_pending (w : World) :
  reachable' w → at_most_one_pending w.
Proof.
  intros [es ->]. induction es as [|e es IH] using rev_ind.
  - by left.
  - rewrite run_snoc. by apply step_at_most_one_pending.
Qed.

Lemma last_update_cons (first : Update) (gap : nat) (u : Update)
    (rest : list (nat * Update)) :
  last_update first ((gap, u) :: rest) = last_update u rest.
Proof.
  unfold last_update. rewrite fmap_cons. simpl snd.
  rewrite last_cons_cons.
  destruct (last (u :: rest.*2)) eqn:Hlast; [done |].
  by apply last_None in Hlast.
Qed.

(** Calls that each come less than 300 ms after the one before keep one timer
    pending, armed by the latest call, and commit nothing: at no point of
    the sequence has the state of the component or the list of commits
    changed. *)
Lemma calls_within_quiet_period (rest : list (nat * Update)) :
  ∀ (u : Update) (w : World),
    just_armed u w →
    Forall (λ gu, (gu.1 < 300)%nat) rest →
    let events := flat_map (λ '(gap, u), [Elapse gap; Change u]) rest in
    just_armed (last_update u rest) (run' events w)
    ∧ ∀ k, dialog (run' (take k events) w) = dialog w
           ∧ commits (run' (take k events) w) = commits w.
Proof.
  induction rest as [|[gap u'] rest IH]; intros u w Harmed Hgaps.
  - split; [done |]. intros k. by destruct k.
  - apply Forall_cons in Hgaps as [Hgap Hgaps]. simpl in Hgap.
    destruct Harmed as (i & Htimers & Hhandle).
    rewrite last_update_cons. cbn [flat_map].
    set (w1 := elapse gap w).
    set (w2 := debounce 300 u' w1).
    assert (w1 = {| dialog := dialog w; console := console w;
                    clock := clock w + gap;
                    timers := [mkTimer i (clock w + 300) u];
                    next_timer := next_timer w; timeout := timeout w;
                    commits := commits w; loading := loading w |}) as Hw1.
    { subst w1. by rewrite (elapse_before_deadline gap _ w Htimers)
        by (simpl; lia). }
    assert (just_armed u' w2 ∧ dialog w2 = dialog w ∧ commits w2 = commits w)
      as (Harmed2 & Hd2 & Hc2).
    { subst w2. rewrite debounce_rearms; [| right; rewrite Hw1; by eexists].
      rewrite Hw1. split; [by eexists | done]. }
    destruct (IH u' w2 Harmed2 Hgaps) as (Ha & Hquiet).
    split; [exact Ha |].
    intros [|[|k]].
    + done.
    + change (dialog w1 = dialog w ∧ commits w1 = commits w). by rewrite Hw1.
    + change (take (S (S k)) ([Elapse gap; Change u'] ++ ?es))
        with (Elapse gap :: Change u' :: take k es).
      change (run' (Elapse gap :: Change u' :: ?es) w) with (run' es w2).
      destruct (Hquiet k) as [-> ->]. done.
Qed.

(** A burst: at no point of it has anything been committed or the state of
    the component changed, and after the last call one timer is pending;
    once 300 ms have passed it has fired, with the arguments of the last
    call, and the component has rendered. *)
Lemma burst_commits_last
    (w : World) (first : Update) (rest : list (nat * Update)) (t : nat) :
  at_most_one_pending w →
  Forall (λ gu, (gu.1 < 300)%nat) rest →
  let w1 := run' (burst first rest) w in
  let w2 := step' w1 (Elapse t) in
  just_armed (last_update first rest) w1
  ∧ (∀ k, dialog (run' (take k (burst first rest)) w) = dialog w
          ∧ commits (run' (take k (burst first rest)) w) = commits w)
  ∧ ((300 ≤ t)%nat →
     commits w2 = commits w ++ [last_update first rest]
     ∧ dialog w2
       = render (changeSearchOption (last_update first rest) (dialog w))
     ∧ timers w2 = [])
  ∧ ((t < 300)%nat → commits w2 = commits w ∧ dialog w2 = dialog w).
Proof.
  intros Hw Hgaps w1 w2. subst w2 w1. unfold burst.
  change (run' (Change first :: ?es) w)
    with (run' es (debounce 300 first w)).
  set (w0 := debounce 300 first w).
  assert (just_armed first w0 ∧ dialog w0 = dialog w ∧ commits w0 = commits w)
    as (Harmed & Hd0 & Hc0).
  { subst w0. rewrite debounce_rearms by done. split; [by eexists | done]. }
  destruct (calls_within_quiet_period rest first w0 Harmed Hgaps)
    as (Ha & Hquiet).
  set (events := flat_map (λ '(gap, u), [Elapse gap; Change u]) rest) in *.
  assert (dialog (run' events w0) = dialog w
          ∧ commits (run' events w0) = commits w) as [Hd Hc].
  { destruct (Hquiet (length events)) as [Hd Hc].
    rewrite firstn_all in Hd, Hc. by rewrite Hd, Hc. }
  set (w1 := run' events w0) in *.
  change (step' w1 (Elapse t)) with (elapse t w1).
  destruct Ha as (i & Htimers & Hhandle).
  split_and!; [by exists i | | |].
  - intros [|k]; [done |].
    change (take (S k) (Change first :: events))
      with (Change first :: take k events).
    change (run' (Change first :: ?es) w) with (run' es w0).
    destruct (Hquiet k) as [-> ->]. done.
  - intros Ht.
    rewrite (elapse_after_deadline t _ _ Htimers) by (simpl; lia).
    simpl. by rewrite Hd, Hc.
  - intros Ht.
    rewrite (elapse_before_deadline t _ _ Htimers) by (simpl; lia).
    done.
Qed.

Lemma get_field_set_field_eq (u : Update) (o : SearchOption) :
  get_field (field_of u) (set_field u o) = u.
Proof. by destruct u. Qed.

Lemma get_field_set_field_ne (f : Field) (u : Update) (o : SearchOption) :
  field_of u ≠ f → get_field f (set_field u o) = get_field f o.
Proof. by destruct u, f. Qed.

(** What the criteria hold after a commit and the render that follows it:
    the committed value under the committed field, the old value under
    every other field. *)
Lemma get_field_committed (f : Field) (u : Update) (o : SearchOption) :
  Sorted Z.le (times o) →
  get_field f (render_sorts_times (set_field u o))
  = if decide (field_of u = f) then rendered_update u else get_field f o.
Proof.
  intros Hsorted.
  destruct u, f; simpl; rewrite ?(sort_ascending_fixed (times o)) by done; done.
Qed.

(** The list of commits only ever grows at its end. *)
Lemma step_commits_prefix (w : World) (e : Event) :
  commits w `prefix_of` commits (step' w e).
Proof.
  destruct e as [net|info|u|b|ms|net|i]; simpl; try done.
  - unfold mount. by destruct (mount_effect net (dialog w) (console w)) as [[]].
  - by apply prefix_app_r.
  - destruct (mount_started_frame net w) as (_ & _ & _ & _ & -> & _). done.
  - destruct (load_settled_frame i w) as (_ & _ & _ & _ & -> & _). done.
Qed.

Lemma run_commits_prefix (es : list Event) (w : World) :
  commits w `prefix_of` commits (run' es w).
Proof.
  induction es as [|e es IH] using rev_ind; [done |].
  rewrite run_snoc. etrans; [apply IH | apply step_commits_prefix].
Qed.

(** The times in the state are in ascending order whenever the component is
    at rest: the hint selects at most one time, and every commit is followed
    by a render. *)
Lemma commits_times_sorted (due : list Timer) (d : Dialog) :
  Sorted Z.le (times (searchOptions d)) →
  Sorted Z.le
    (times (searchOptions
       (foldl (λ d t, render (changeSearchOption (timer_args t) d)) d due))).
Proof.
  intros Hd. induction due as [|t due IH] using rev_ind; [done |].
  rewrite foldl_snoc. apply render_times_sorted.
Qed.

Lemma mount_options (net : Network) (w : World) :
  searchOptions (dialog (mount net w)) = searchOptions (dialog w).
Proof.
  unfold mount, mount_effect.
  destruct (0 <? length (lecturesCache (dialog w)))%nat; [done |].
  unfold mbind, Eff_bind.
  by destruct (fetchAllLectures net (console w)) as [[results|e] console'].
Qed.

Lemma step_times_sorted (w : World) (e : Event) :
  Sorted Z.le (times (searchOptions (dialog w))) →
  Sorted Z.le (times (searchOptions (dialog (step' w e)))).
Proof.
  intros Hw. destruct e as [net|info|u|[|]|ms|net|i]; cbn [step].
  - by rewrite mount_options.
  - simpl. destruct (info ≫= info_time) as [t|]; [| constructor].
    destruct (JS.truthy_number t); repeat constructor.
  - done.
  - done.
  - done.
  - by apply commits_times_sorted.
  - destruct (mount_started_frame net w) as (_ & _ & _ & _ & _ & _ & ->). done.
  - destruct (load_settled_frame i w) as (_ & _ & _ & _ & _ & _ & ->). done.
Qed.

Lemma reachable_times_sorted (w : World) :
  reachable' w → Sorted Z.le (times (searchOptions (dialog w))).
Proof.
  intros [es ->]. induction es as [|e es IH] using rev_ind; [constructor |].
  rewrite run_snoc. by apply step_times_sorted.
Qed.

(** In a reachable state a render writes nothing: the times it would sort
    are in ascending order already. *)
Lemma reachable_render_fixed (w : World) :
  reachable' w → render (dialog w) = dialog w.
Proof. intros Hw. by apply render_fixed, reachable_times_sorted. Qed.

(** C4: starting from any reachable state, a burst of N >= 1 calls in which
    every call comes less than 300 ms after the one before it (so in
    particular N calls within one span of less than 300 ms) commits nothing
    while it lasts: at every point of the burst the state of the component is
    the one it started from.  Once 300 ms have passed after the last call
    exactly one commit has been made, and it is the last call's: the criteria
    hold the value of the last call under the field of the last call (the
    times in ascending order, as the render that follows the commit leaves
    them) and their old values under every other field; the page is back at
    1, the catalog is untouched and no timer is left pending. *)
Theorem debounced_burst_commits_once_with_last_call
    (w : World) (first : Update) (rest : list (nat * Update)) (t : nat) :
  reachable' w →
  Forall (λ gu, (gu.1 < 300)%nat) rest →
  (300 ≤ t)%nat →
  let w1 := run' (burst first rest) w in
  let w2 := step' w1 (Elapse t) in
  let called := last_update first rest in
  (∀ k, dialog (run' (take k (burst first rest)) w) = dialog w
        ∧ commits (run' (take k (burst first rest)) w) = commits w)
  ∧ commits w2 = commits w ++ [called]
  ∧ get_field (field_of called) (searchOptions (dialog w2))
    = rendered_update called
  ∧ (∀ f, f ≠ field_of called →
       get_field f (searchOptions (dialog w2))
       = get_field f (searchOptions (dialog w)))
  ∧ page (dialog w2) = 1
  ∧ lectures (dialog w2) = lectures (dialog w)
  ∧ timers w2 = [].
Proof using Type.
  intros Hw Hgaps Ht w1 w2 called.
  pose proof (reachable_times_sorted w Hw) as Hsorted.
  apply reachable_at_most_one_pending in Hw.
  destruct (burst_commits_last w first rest t Hw Hgaps)
    as (_ & Hquiet & Hfire & _).
  destruct (Hfire Ht) as (Hc2 & Hd2 & Ht2).
  fold w1 in Hc2, Hd2, Ht2. fold w2 in Hc2, Hd2, Ht2. fold called in Hc2, Hd2.
  split_and!; [done | done | | | by rewrite Hd2 | by rewrite Hd2 | done].
  - rewrite Hd2. cbn [render changeSearchOption setSearchOptions setPage
                      searchOptions].
    rewrite get_field_committed by done. by destruct (decide _).
  - intros f Hf. rewrite Hd2.
    cbn [render changeSearchOption setSearchOptions setPage searchOptions].
    rewrite get_field_committed by done. by destruct (decide _).
Qed.

(** C9: there is one timer for all fields.  When a call for one field is
    followed within 300 ms by a call for another field, the first call is
    never committed: whatever time passes afterwards, the field of the first
    call keeps the value it had, and the only commit, made once 300 ms have
    passed, is the second call's, whose value the criteria then hold under
    its field (the times in ascending order, as the render leaves them). *)
Theorem debounce_timer_is_shared_across_fields
    (w : World) (u1 u2 : Update) (gap t : nat) :
  reachable' w →
  field_of u1 ≠ field_of u2 →
  (gap < 300)%nat →
  let w' := run' [Change u1; Elapse gap; Change u2; Elapse t] w in
  commits w' = commits w ++ (if (300 <=? t)%nat then [u2] else [])
  ∧ get_field (field_of u1) (searchOptions (dialog w'))
    = get_field (field_of u1) (searchOptions (dialog w))
  ∧ ((300 ≤ t)%nat →
     get_field (field_of u2) (searchOptions (dialog w')) = rendered_update u2).
Proof using Type.
  intros Hw Hfields Hgap w'.
  pose proof (reachable_times_sorted w Hw) as Hsorted.
  apply reachable_at_most_one_pending in Hw.
  assert (Forall (λ gu : nat * Update, (gu.1 < 300)%nat) [(gap, u2)])
    as Hgaps by (by apply Forall_singleton).
  destruct (burst_commits_last w u1 [(gap, u2)] t Hw Hgaps)
    as (_ & _ & Hfire & Hquiet).
  change (step' (run' (burst u1 [(gap, u2)]) w) (Elapse t)) with w'
    in Hfire, Hquiet.
  change (last_update u1 [(gap, u2)]) with u2 in Hfire.
  destruct (Nat.leb_spec 300 t) as [Hle|Hlt].
  - destruct (Hfire Hle) as (Hc & Hd & _). rewrite Hc, Hd.
    cbn [render changeSearchOption setSearchOptions setPage searchOptions].
    rewrite !get_field_committed by done.
    split_and!; [done | | intros _].
    + destruct (decide (field_of u2 = field_of u1)); [congruence | done].
    + by destruct (decide (field_of u2 = field_of u2)).
  - destruct (Hquiet Hlt) as (Hc & Hd). rewrite Hc, Hd, app_nil_r.
    split_and!; [done | done | lia].
Qed.

(** ** The page number *)

Local Abbreviation currentLastPage' :=
  (currentLastPage toLowerCase parseSchedule).






End Engine.

Lemma initialWorld_reachable (tl : string → string) (ps : string → list Slot) :
  reachable tl ps initialWorld.
Proof. by exists []. Qed.

Lemma debounced_burst_commits_once_with_last_call_witness :
  let calls :=
    burst (SetQuery (Some "i"))
      [(100%nat, SetQuery (Some "in")); (120%nat, SetTimes [2; 1])] in
  let w1 := run Sample.toLowerCase Sample.parseSchedule calls initialWorld in
  let w2 := step Sample.toLowerCase Sample.parseSchedule w1 (Elapse 300) in
  (∀ k, dialog (run Sample.toLowerCase Sample.parseSchedule
                  (take k calls) initialWorld) = dialog initialWorld
        ∧ commits (run Sample.toLowerCase Sample.parseSchedule
                     (take k calls) initialWorld) = commits initialWorld)
  ∧ commits w2 = commits initialWorld ++ [SetTimes [2; 1]]
  ∧ get_field Ftimes (searchOptions (dialog w2))
    = rendered_update (SetTimes [2; 1])
  ∧ (∀ f, f ≠ Ftimes →
       get_field f (searchOptions (dialog w2))
       = get_field f (searchOptions (dialog initialWorld)))
  ∧ page (dialog w2) = 1
  ∧ lectures (dialog w2) = lectures (dialog initialWorld)
  ∧ timers w2 = [].
Proof.
  apply (debounced_burst_commits_once_with_last_call
           Sample.toLowerCase Sample.parseSchedule initialWorld
           (SetQuery (Some "i"))
           [(100%nat, SetQuery (Some "in")); (120%nat, SetTimes [2; 1])]
           300).
  - apply initialWorld_reachable.
  - repeat constructor; simpl; lia.
  - lia.
Defined.

Example commit_of_unsorted_times_is_held_sorted :
  let w :=
    run Sample.toLowerCase Sample.parseSchedule
      [Change (SetTimes [3; 1; 2]); Elapse 300] initialWorld in
  commits w = [SetTimes [3; 1; 2]]
  ∧ times (searchOptions (dialog w)) = [1; 2; 3].
Proof. by vm_compute. Qed.

Example two_calls_one_commit :
  let w :=
    run Sample.toLowerCase Sample.parseSchedule
      [Change (SetQuery (Some "intro")); Elapse 299; Change (SetGrades [2; 3]);
       Elapse 300]
      initialWorld in
  commits w = [SetGrades [2; 3]]
  ∧ searchOptions (dialog w)
    = set_field (SetGrades [2; 3]) Sample.empty_options.
Proof. by vm_compute. Qed.

Lemma debounce_timer_is_shared_across_fields_witness :
  let w' :=
    run Sample.toLowerCase Sample.parseSchedule
      [Change (SetQuery (Some "intro")); Elapse 299; Change (SetTimes [2; 1]);
       Elapse 1000]
      initialWorld in
  commits w' = commits initialWorld ++ [SetTimes [2; 1]]
  ∧ get_field Fquery (searchOptions (dialog w'))
    = get_field Fquery (searchOptions (dialog initialWorld))
  ∧ ((300 ≤ 1000)%nat →
     get_field Ftimes (searchOptions (dialog w'))
     = rendered_update (SetTimes [2; 1])).
Proof.
  apply (debounce_timer_is_shared_across_fields
           Sample.toLowerCase Sample.parseSchedule initialWorld
           (SetQuery (Some "intro")) (SetTimes [2; 1]) 299 1000).
  - apply initialWorld_reachable.
  - discriminate.
  - lia.
Defined.



(** ** Schedule export *)

(** C10: [addSchedule] for a table that has a slot list appends the parsed
    slots of the lecture, each tagged with the lecture, to that list, leaves
    the list of every other table as it is, and calls [onClose]; for a table
    without an entry the update throws a [TypeError] and no entry is
    created. *)
Theorem addSchedule_needs_existing_table
    (parseSchedule : string → list Slot)
    (info : SearchInfo) (lecture : Lecture)
    (schedulesMap : gmap string (list Schedule)) :
  let added :=
    (λ s, {| sched_slot := s; sched_lecture := lecture |})
      <$> parseSchedule (schedule lecture) in
  (∀ existing, schedulesMap !! tableId info = Some existing →
     ∃ schedulesMap',
       addSchedule parseSchedule (Some info) lecture schedulesMap
       = (Returned schedulesMap', true)
       ∧ schedulesMap' !! tableId info = Some (existing ++ added)
       ∧ ∀ other, other ≠ tableId info →
           schedulesMap' !! other = schedulesMap !! other)
  ∧ (schedulesMap !! tableId info = None →
     ∃ msg,
       addSchedule parseSchedule (Some info) lecture schedulesMap
       = (Thrown (TypeError msg), true)).
Proof.
  intros added. unfold addSchedule, schedulesMap_updater. split.
  - intros existing ->. eexists. split; [done |]. split.
    + apply lookup_insert_eq.
    + intros other Hother. by apply lookup_insert_ne.
  - intros ->. by eexists.
Qed.

Lemma addSchedule_needs_existing_table_witness :
  (∃ schedulesMap',
     addSchedule Sample.parseSchedule
       (Some (mkSearchInfo "schedule-1" None None)) Sample.cs101
       {[ "schedule-1" := [] ]}
     = (Returned schedulesMap', true)
     ∧ schedulesMap' !! "schedule-1"
       = Some ([] ++ [mkSchedule (mkSlot "M" [1; 2]) Sample.cs101])
     ∧ ∀ other, other ≠ "schedule-1" →
         schedulesMap' !! other
         = ({[ "schedule-1" := [] ]} : gmap string (list Schedule)) !! other)
  ∧ (∃ msg,
       addSchedule Sample.parseSchedule
         (Some (mkSearchInfo "schedule-2" None None)) Sample.cs101
         {[ "schedule-1" := [] ]}
       = (Thrown (TypeError msg), true)).
Proof.
  split.
  - destruct (addSchedule_needs_existing_table Sample.parseSchedule
                (mkSearchInfo "schedule-1" None None) Sample.cs101
                {[ "schedule-1" := [] ]}) as [Hpresent _].
    apply Hpresent. reflexivity.
  - destruct (addSchedule_needs_existing_table Sample.parseSchedule
                (mkSearchInfo "schedule-2" None None) Sample.cs101
                {[ "schedule-1" := [] ]}) as [_ Hmissing].
    apply Hmissing. reflexivity.
Defined.

(** * Further properties of the component *)

(** ** Merging partitions *)

Section MergeFacts.
Implicit Types (r a b : Lecture) (all A B : list Lecture).

Local Abbreviation entries all := ((λ lecture, (id lecture, lecture)) <$> all).

Lemma set_fresh {K V} `{EqDecision K} (k : K) (v : V) (m : list (K * V)) :
  k ∉ m.*1 → JS.set k v m = m ++ [(k, v)].
Proof.
  induction m as [|[k' v'] m IH]; [done |].
  rewrite fmap_cons, not_elem_of_cons. simpl. intros [Hne Hnin].
  destruct (decide (k' = k)); [congruence |]. by rewrite IH.
Qed.

Lemma of_entries_distinct_keys {K V} `{EqDecision K} (es : list (K * V)) :
  NoDup es.*1 → JS.of_entries es = es.
Proof.
  induction es as [|[k v] es IH] using rev_ind; [done |].
  rewrite fmap_app. intros (Hes & Hk & _)%NoDup_app.
  rewrite of_entries_snoc, IH by done. apply set_fresh.
  intros Hin. apply (Hk k Hin). simpl. left.
Qed.

Lemma entries_values all : (entries all).*2 = all.
Proof. rewrite <- list_fmap_compose. apply list_fmap_id. Qed.

(** X1: a catalog whose identifiers are pairwise distinct passes through the
    merge unchanged, record for record and in order. *)
Theorem merge_keeps_catalog_with_distinct_ids all :
  NoDup (id <$> all) → uniqueLectures all = all.
Proof.
  intros Hall. unfold uniqueLectures, JS.values.
  rewrite of_entries_distinct_keys by (by rewrite entries_keys).
  apply entries_values.
Qed.

(** X2: merging is idempotent: merging an already merged catalog changes
    nothing. *)
Theorem merge_is_idempotent all :
  uniqueLectures (uniqueLectures all) = uniqueLectures all.
Proof.
  unfold uniqueLectures at 1. unfold JS.values.
  rewrite of_entries_distinct_keys
    by (rewrite entries_keys; apply uniqueLectures_NoDup).
  apply entries_values.
Qed.

Lemma first_occurrences_snoc (k : string) (ks : list string) :
  reverse (remove_dups (reverse (ks ++ [k])))
  = if decide (k ∈ ks) then reverse (remove_dups (reverse ks))
    else reverse (remove_dups (reverse ks)) ++ [k].
Proof.
  rewrite reverse_snoc. cbn [remove_dups].
  destruct (decide (k ∈ ks)) as [Hin|Hnin].
  - destruct (decide_rel elem_of k (reverse ks)) as [|Hn]; [done |].
    destruct Hn. by rewrite elem_of_reverse.
  - destruct (decide_rel elem_of k (reverse ks)) as [Hy|].
    + destruct Hnin. by rewrite elem_of_reverse in Hy.
    + by rewrite reverse_cons.
Qed.

(** X3: the merged catalog lists the identifiers in the order in which they
    first occur in the input ([remove_dups] keeps the last occurrence of each
    element, so on the reversed list it keeps the first). *)
Theorem merge_orders_ids_by_first_occurrence all :
  id <$> uniqueLectures all = reverse (remove_dups (reverse (id <$> all))).
Proof.
  rewrite uniqueLectures_ids.
  induction all as [|r all IH] using rev_ind; [done |].
  rewrite !fmap_app. simpl. rewrite of_entries_snoc, keys_set, IH.
  rewrite first_occurrences_snoc.
  destruct (decide (id r ∈ id <$> all)) as [Hin|Hnin].
  - destruct (decide (id r ∈ reverse (remove_dups (reverse (id <$> all)))))
      as [|Hn]; [done |].
    destruct Hn.
    by rewrite elem_of_reverse, elem_of_remove_dups, elem_of_reverse.
  - destruct (decide (id r ∈ reverse (remove_dups (reverse (id <$> all)))))
      as [Hy|]; [| done].
    destruct Hnin.
    by rewrite elem_of_reverse, elem_of_remove_dups, elem_of_reverse in Hy.
Qed.

End MergeFacts.

Lemma merge_keeps_catalog_with_distinct_ids_witness :
  uniqueLectures [Sample.cs101; Sample.ma201; Sample.la110]
  = [Sample.cs101; Sample.ma201; Sample.la110].
Proof.
  apply merge_keeps_catalog_with_distinct_ids.
  refine (bool_decide_unpack _ _). vm_compute. exact I.
Defined.

Lemma mem_false `{EqDecision A} (xs : list A) (x : A) :
  JS.mem xs x = false ↔ x ∉ xs.
Proof. rewrite <- mem_true. by destruct (JS.mem xs x). Qed.

Section MergeFormula.
Implicit Types (a b : Lecture) (A B : list Lecture) (m : list (string * Lecture)).

Local Abbreviation entries all := ((λ lecture, (id lecture, lecture)) <$> all).
Local Abbreviation later B :=
  (λ e : string * Lecture,
     (e.1, default e.2 (List.find (λ b, bool_decide (id b = e.1)) B))).

Lemma find_fresh B (k : string) :
  k ∉ id <$> B → List.find (λ b, bool_decide (id b = k)) B = None.
Proof.
  induction B as [|b B IH]; [done |].
  rewrite fmap_cons, not_elem_of_cons. intros [Hne Hnin]. simpl.
  rewrite bool_decide_eq_false_2 by congruence. auto.
Qed.

Lemma later_cons_other b B m :
  id b ∉ m.*1 → later (b :: B) <$> m = later B <$> m.
Proof.
  induction m as [|[k v] m IH]; [done |].
  rewrite fmap_cons, not_elem_of_cons. intros [Hne Hnin].
  rewrite !fmap_cons, IH by done. simpl.
  by rewrite bool_decide_eq_false_2 by done.
Qed.

Lemma later_set b B m :
  NoDup m.*1 → id b ∉ id <$> B →
  later B <$> JS.set (id b) b m
  = (later (b :: B) <$> m)
    ++ (if decide (id b ∈ m.*1) then [] else [(id b, b)]).
Proof.
  intros Hm Hb. induction m as [|[k v] m IH].
  - simpl. rewrite find_fresh by done.
    by destruct (decide (id b ∈ [])) as [?%elem_of_nil|].
  - rewrite fmap_cons in Hm. apply NoDup_cons in Hm as [Hk Hm]. simpl in Hk.
    cbn [JS.set]. destruct (decide (k = id b)) as [->|Hne].
    + rewrite !fmap_cons. cbn [fst snd].
      rewrite later_cons_other by done.
      destruct (decide (id b ∈ id b :: m.*1)) as [_|Hn];
        [| destruct Hn; left].
      rewrite app_nil_r. f_equal. simpl.
      rewrite find_fresh by done.
      by rewrite bool_decide_eq_true_2 by done.
    + rewrite !fmap_cons, IH by done. cbn [fst snd].
      rewrite <- app_comm_cons. f_equal.
      * simpl. by rewrite bool_decide_eq_false_2 by congruence.
      * f_equal. destruct (decide (id b ∈ m.*1)) as [Hin|Hnin].
        -- destruct (decide (id b ∈ k :: m.*1)) as [|Hn]; [done |].
           destruct Hn. by right.
        -- destruct (decide (id b ∈ k :: m.*1)) as [Hy|]; [| done].
           apply elem_of_cons in Hy as [?|?]; [congruence | done].
Qed.

Lemma later_nil m : later [] <$> m = m.
Proof.
  induction m as [|[k v] m IH]; [done |]. by rewrite fmap_cons, IH.
Qed.

Lemma set_all_distinct B :
  ∀ m, NoDup m.*1 → NoDup (id <$> B) →
    foldl (λ m e, JS.set e.1 e.2 m) m (entries B)
    = (later B <$> m)
      ++ entries (List.filter (λ b, negb (JS.mem m.*1 (id b))) B).
Proof.
  induction B as [|b B IH]; intros m Hm HB.
  - simpl. by rewrite later_nil, app_nil_r.
  - rewrite fmap_cons in HB. apply NoDup_cons in HB as [Hb HB].
    rewrite fmap_cons. cbn [foldl fst snd].
    rewrite IH by (done || by apply keys_set_NoDup).
    rewrite later_set, keys_set by done. cbn [List.filter].
    destruct (decide (id b ∈ m.*1)) as [Hin|Hnin].
    + rewrite app_nil_r. by rewrite (proj2 (mem_true _ _) Hin).
    + rewrite (proj2 (mem_false _ _) Hnin). cbn [negb].
      rewrite fmap_cons, <- app_assoc. f_equal. simpl. do 2 f_equal.
      apply filter_ext_in. intros b' Hb'%list_elem_of_In. f_equal.
      destruct (JS.mem m.*1 (id b')) eqn:Hmem.
      * apply mem_true. apply mem_true in Hmem.
        rewrite elem_of_app. by left.
      * apply mem_false. apply mem_false in Hmem.
        rewrite elem_of_app, list_elem_of_singleton. intros [?|Heq]; [done |].
        destruct Hb. rewrite <- Heq. apply list_elem_of_fmap. by exists b'.
Qed.

(** X4: when neither partition repeats an identifier, the merged catalog
    is partition A with every record that partition B also carries replaced,
    in place, by B's record, followed by the records of B whose identifier
    is new, in B's order. *)
Theorem merge_replaces_in_place_and_appends_new A B :
  NoDup (id <$> A) → NoDup (id <$> B) →
  uniqueLectures (A ++ B)
  = ((λ a, default a (List.find (λ b, bool_decide (id b = id a)) B)) <$> A)
    ++ List.filter (λ b, negb (JS.mem (id <$> A) (id b))) B.
Proof.
  intros HA HB. unfold uniqueLectures, JS.values, JS.of_entries.
  rewrite fmap_app, foldl_app.
  fold (JS.of_entries (entries A)).
  rewrite of_entries_distinct_keys by (by rewrite entries_keys).
  rewrite set_all_distinct by (done || by rewrite entries_keys).
  rewrite fmap_app, entries_keys, entries_values. f_equal.
  rewrite <- !list_fmap_compose. by apply list_fmap_ext.
Qed.

End MergeFormula.

Lemma merge_replaces_in_place_and_appends_new_witness :
  uniqueLectures ([Sample.cs101; Sample.ma201] ++ [Sample.la110; Sample.cs101'])
  = [Sample.cs101'; Sample.ma201] ++ [Sample.la110].
Proof.
  apply (merge_replaces_in_place_and_appends_new
           [Sample.cs101; Sample.ma201] [Sample.la110; Sample.cs101']).
  - refine (bool_decide_unpack _ _). vm_compute. exact I.
  - refine (bool_decide_unpack _ _). vm_compute. exact I.
Defined.

(** ** String primitives *)

Lemma startsWith_spec (s p : string) :
  JS.startsWith s p = true ↔ ∃ rest, s = p +:+ rest.
Proof.
  revert s. induction p as [|b p IH]; intros s.
  - rewrite startsWith_empty. split; [by exists s | done].
  - destruct s as [|a s]; simpl.
    + split; [done | by intros [? ?]].
    + rewrite andb_true_iff, bool_decide_eq_true, IH. split.
      * intros [-> [rest ->]]. by exists rest.
      * intros [rest [= -> ->]]. split; [done | by exists rest].
Qed.

Lemma includes_spec (s p : string) :
  JS.includes s p = true ↔ ∃ before after, s = before +:+ p +:+ after.
Proof.
  induction s as [|a s IH].
  - cbn [JS.includes]. rewrite orb_false_r, startsWith_spec. split.
    + intros [rest ->]. by exists "", rest.
    + intros ([|??] & after & Heq); [by exists after | done].
  - cbn [JS.includes]. rewrite orb_true_iff, startsWith_spec, IH. split.
    + intros [[rest ->]|(before & after & ->)].
      * by exists "", rest.
      * by exists (String a before), after.
    + intros ([|a' before] & after & Heq).
      * left. by exists after.
      * right. injection Heq as -> ->. by exists before, after.
Qed.

(** ** More on the filter *)

Lemma List_filter_sublist {A} (f : A → bool) (l : list A) :
  List.filter f l `sublist_of` l.
Proof.
  induction l as [|x l IH]; [done |]. simpl.
  destruct (f x); [by apply sublist_skip | by apply sublist_cons].
Qed.

Lemma List_filter_filter {A} (f g : A → bool) (l : list A) :
  List.filter f (List.filter g l) = List.filter (λ x, g x && f x) l.
Proof.
  induction l as [|x l IH]; [done |]. simpl.
  destruct (g x); simpl; [destruct (f x) |]; by rewrite IH.
Qed.

Lemma List_filter_mono {A} (f g : A → bool) (l : list A) :
  (∀ x, x ∈ l → f x = true → g x = true) →
  List.filter f l `sublist_of` List.filter g l.
Proof.
  induction l as [|x l IH]; intros Hfg; [done |]. simpl.
  assert (List.filter f l `sublist_of` List.filter g l) as Hl
    by (apply IH; intros y Hy; apply Hfg; by right).
  destruct (f x) eqn:Hf.
  - rewrite (Hfg x) by (done || left). by apply sublist_skip.
  - destruct (g x); [by apply sublist_cons | done].
Qed.

Section FilterMore.
Variable toLowerCase : string → string.
Variable parseSchedule : string → list Slot.

Local Abbreviation filtered := (filteredLectures toLowerCase parseSchedule).

(** The six stages as one test. *)
Local Abbreviation passes o :=
  (λ r : Lecture,
     matches_query toLowerCase (toLowerCase (default "" (query o))) r
     && matches_grades (grades o) r
     && matches_majors (majors o) r
     && matches_credits (opt_credits o) r
     && matches_days parseSchedule (days o) r
     && matches_times parseSchedule (times o) r).

Lemma filtered_single_pass (o : SearchOption) (ls : list Lecture) :
  filtered o ls = List.filter (passes o) ls.
Proof.
  unfold filteredLectures. rewrite !List_filter_filter.
  apply filter_ext. intros r. by rewrite ?andb_assoc.
Qed.

(** X5: the filtered view is a subsequence of the catalog: it shows records
    of the catalog only, each at most as often as the catalog has it, and in
    the catalog's order. *)
Theorem filtered_view_is_subsequence_of_catalog
    (o : SearchOption) (ls : list Lecture) :
  filtered o ls `sublist_of` ls.
Proof using Type.
  rewrite filtered_single_pass. apply List_filter_sublist.
Qed.

(** X6: filtering is idempotent: filtering the view again with the same
    criteria returns the view. *)
Theorem filter_is_idempotent (o : SearchOption) (ls : list Lecture) :
  filtered o (filtered o ls) = filtered o ls.
Proof using Type.
  rewrite !filtered_single_pass, List_filter_filter.
  apply filter_ext. intros r. by destruct (passes o r).
Qed.

Lemma matches_set_spec `{EqDecision A} (xs : list A) (x : A) :
  (length xs =? 0)%nat || JS.mem xs x = true ↔ xs = [] ∨ x ∈ xs.
Proof.
  rewrite orb_true_iff, mem_true, Nat.eqb_eq, length_zero_iff_nil. done.
Qed.

Lemma schedules_of_elem (r : Lecture) (s : Slot) :
  s ∈ schedules_of parseSchedule r ↔
  schedule r ≠ "" ∧ s ∈ parseSchedule (schedule r).
Proof.
  unfold schedules_of. destruct (schedule r) as [|c rest]; simpl.
  - split; [by intros ?%elem_of_nil | by intros [? _]].
  - split; [done | by intros [_ ?]].
Qed.

Lemma some_spec {A} (xs : list A) (f : A → bool) :
  JS.some xs f = true ↔ ∃ x, x ∈ xs ∧ f x = true.
Proof.
  unfold JS.some. rewrite existsb_exists.
  split; intros (x & Hx & Hf); exists x; by rewrite list_elem_of_In in *.
Qed.

Lemma matches_days_spec (ds : list string) (r : Lecture) :
  matches_days parseSchedule ds r = true ↔
  ds = [] ∨ (schedule r ≠ "" ∧
             ∃ s, s ∈ parseSchedule (schedule r) ∧ day s ∈ ds).
Proof.
  unfold matches_days. destruct ds as [|d ds]; [by split; [left |] |].
  cbn [length Nat.eqb]. rewrite some_spec. split.
  - intros (s & [? ?]%schedules_of_elem & ?%mem_true). right. eauto.
  - intros [?|(? & s & ? & ?)]; [done |]. exists s.
    by rewrite schedules_of_elem, mem_true.
Qed.

Lemma matches_times_spec (ts : list Z) (r : Lecture) :
  matches_times parseSchedule ts r = true ↔
  ts = [] ∨ (schedule r ≠ "" ∧
             ∃ s t, s ∈ parseSchedule (schedule r) ∧ t ∈ range s ∧ t ∈ ts).
Proof.
  unfold matches_times. destruct ts as [|t0 ts]; [by split; [left |] |].
  cbn [length Nat.eqb]. rewrite some_spec. split.
  - intros (s & [? ?]%schedules_of_elem & (t & ? & ?%mem_true)%some_spec).
    right. eauto 6.
  - intros [?|(? & s & t & ? & ? & ?)]; [done |]. exists s.
    rewrite schedules_of_elem, some_spec. split; [done |].
    exists t. by rewrite mem_true.
Qed.

(** X7: what the view holds, in full.  A record is in the filtered view
    exactly when it is in the catalog and, for each of the six dimensions,
    either the dimension is switched off or the record matches it: the
    lower-cased query occurs in the lower-cased title or identifier; the
    grade is among the grades; the major is among the majors; the credit
    string starts with the credit filter; the schedule is not empty and has
    a slot on one of the days; the schedule is not empty and has a slot that
    covers one of the times.  The day and the time may be matched by
    different slots. *)
Theorem filtered_view_characterised
    (o : SearchOption) (ls : list Lecture) (r : Lecture) :
  let q := toLowerCase (default "" (query o)) in
  r ∈ filtered o ls ↔
  r ∈ ls
  ∧ ((∃ before after, toLowerCase (title r) = before +:+ q +:+ after)
     ∨ (∃ before after, toLowerCase (id r) = before +:+ q +:+ after))
  ∧ (grades o = [] ∨ grade r ∈ grades o)
  ∧ (majors o = [] ∨ major r ∈ majors o)
  ∧ (truthy_credits (opt_credits o) = false
     ∨ ∃ rest, credits r = String_credits (opt_credits o) +:+ rest)
  ∧ (days o = []
     ∨ (schedule r ≠ ""
        ∧ ∃ s, s ∈ parseSchedule (schedule r) ∧ day s ∈ days o))
  ∧ (times o = []
     ∨ (schedule r ≠ ""
        ∧ ∃ s t, s ∈ parseSchedule (schedule r)
                 ∧ t ∈ range s ∧ t ∈ times o)).
Proof using Type.
  intros q. rewrite filteredLectures_elem. fold q.
  unfold matches_query, matches_grades, matches_majors, matches_credits.
  rewrite orb_true_iff, !includes_spec, !matches_set_spec.
  rewrite orb_true_iff, negb_true_iff, startsWith_spec.
  by rewrite matches_days_spec, matches_times_spec.
Qed.

End FilterMore.

(** ** Criteria as sets, the major list and the tags *)

Lemma same_elements_nil {A} (xs ys : list A) :
  (∀ y, y ∈ xs ↔ y ∈ ys) → xs = [] ↔ ys = [].
Proof.
  intros Hsame. split; intros ->.
  - destruct ys as [|y ys]; [done |].
    assert (y ∈ []) as ?%elem_of_nil by (apply Hsame; left). done.
  - destruct xs as [|x xs]; [done |].
    assert (x ∈ []) as ?%elem_of_nil by (apply Hsame; left). done.
Qed.

Lemma set_test_ext `{EqDecision A} (xs ys : list A) (x : A) :
  (∀ y, y ∈ xs ↔ y ∈ ys) →
  (length xs =? 0)%nat || JS.mem xs x = (length ys =? 0)%nat || JS.mem ys x.
Proof.
  intros Hsame. apply eq_true_iff_eq.
  by rewrite !matches_set_spec, (same_elements_nil xs ys), Hsame.
Qed.

Lemma of_values_snoc `{EqDecision A} (xs : list A) (x : A) :
  JSSet.of_values (xs ++ [x]) = JSSet.add x (JSSet.of_values xs).
Proof. unfold JSSet.of_values. by rewrite foldl_snoc. Qed.

Lemma of_values_first_occurrences (xs : list string) :
  JSSet.of_values xs = reverse (remove_dups (reverse xs)).
Proof.
  induction xs as [|x xs IH] using rev_ind; [done |].
  rewrite of_values_snoc, first_occurrences_snoc, <- IH. unfold JSSet.add.
  destruct (decide (x ∈ xs)) as [Hin|Hnin].
  - rewrite (proj2 (mem_true _ _)); [done |].
    by rewrite IH, elem_of_reverse, elem_of_remove_dups, elem_of_reverse.
  - rewrite (proj2 (mem_false _ _)); [done |].
    by rewrite IH, elem_of_reverse, elem_of_remove_dups, elem_of_reverse.
Qed.

Lemma allMajors_elem (ls : list Lecture) (m : string) :
  m ∈ allMajors ls ↔ ∃ r, r ∈ ls ∧ major r = m.
Proof.
  unfold allMajors.
  rewrite of_values_first_occurrences, elem_of_reverse, elem_of_remove_dups,
    elem_of_reverse, list_elem_of_fmap.
  split; intros (r & ? & ?); by exists r.
Qed.

(** X8: the list of majors offered as check boxes names every major of the
    catalog exactly once, in the order in which the majors first occur. *)
Theorem allMajors_lists_each_major_once (ls : list Lecture) :
  NoDup (allMajors ls)
  ∧ (∀ m, m ∈ allMajors ls ↔ ∃ r, r ∈ ls ∧ major r = m)
  ∧ allMajors ls = reverse (remove_dups (reverse (major <$> ls))).
Proof.
  split_and!.
  - unfold allMajors. rewrite of_values_first_occurrences.
    rewrite reverse_Permutation. apply NoDup_remove_dups.
  - apply allMajors_elem.
  - apply of_values_first_occurrences.
Qed.

Section FilterSets.
Variable toLowerCase : string → string.
Variable parseSchedule : string → list Slot.

Local Abbreviation filtered := (filteredLectures toLowerCase parseSchedule).

Lemma matches_days_ext (ds1 ds2 : list string) (r : Lecture) :
  (∀ d, d ∈ ds1 ↔ d ∈ ds2) →
  matches_days parseSchedule ds1 r = matches_days parseSchedule ds2 r.
Proof.
  intros Hsame. apply eq_true_iff_eq.
  rewrite !matches_days_spec, (same_elements_nil ds1 ds2) by done.
  by setoid_rewrite Hsame.
Qed.

Lemma matches_times_ext (ts1 ts2 : list Z) (r : Lecture) :
  (∀ t, t ∈ ts1 ↔ t ∈ ts2) →
  matches_times parseSchedule ts1 r = matches_times parseSchedule ts2 r.
Proof.
  intros Hsame. apply eq_true_iff_eq.
  rewrite !matches_times_spec, (same_elements_nil ts1 ts2) by done.
  by setoid_rewrite Hsame.
Qed.

Lemma filtered_ext (o1 o2 : SearchOption) (ls : list Lecture) :
  query o1 = query o2 →
  opt_credits o1 = opt_credits o2 →
  (∀ g, g ∈ grades o1 ↔ g ∈ grades o2) →
  (∀ m, m ∈ majors o1 ↔ m ∈ majors o2) →
  (∀ d, d ∈ days o1 ↔ d ∈ days o2) →
  (∀ t, t ∈ times o1 ↔ t ∈ times o2) →
  filtered o1 ls = filtered o2 ls.
Proof.
  intros Hq Hc Hg Hm Hd Ht. unfold filteredLectures. rewrite Hq, Hc.
  rewrite (List.filter_ext _ _ (λ r, matches_times_ext _ _ r Ht)).
  rewrite (List.filter_ext _ _ (λ r, matches_days_ext _ _ r Hd)).
  rewrite (List.filter_ext (matches_majors (majors o1))
             (matches_majors (majors o2)))
    by (intros r; by apply set_test_ext).
  by rewrite (List.filter_ext (matches_grades (grades o1))
                (matches_grades (grades o2)))
    by (intros r; by apply set_test_ext).
Qed.

(** X9: the four selections act as sets: two criteria with the same query
    and credit filter whose grade, major, day and time lists have the same
    elements, in whatever order and however often repeated, give the same
    view. *)
Theorem view_depends_on_selected_sets_only
    (o1 o2 : SearchOption) (ls : list Lecture) :
  query o1 = query o2 →
  opt_credits o1 = opt_credits o2 →
  (∀ g, g ∈ grades o1 ↔ g ∈ grades o2) →
  (∀ m, m ∈ majors o1 ↔ m ∈ majors o2) →
  (∀ d, d ∈ days o1 ↔ d ∈ days o2) →
  (∀ t, t ∈ times o1 ↔ t ∈ times o2) →
  filtered o1 ls = filtered o2 ls.
Proof using Type. apply filtered_ext. Qed.

(** X10: the sort that the render applies to [searchOptions.times] in place
    leaves the times in ascending order, keeps every selected time as often
    as it was selected, and does not change the filtered view. *)
Theorem render_sort_of_times_keeps_view
    (o : SearchOption) (ls : list Lecture) :
  Sorted Z.le (times (render_sorts_times o))
  ∧ times (render_sorts_times o) ≡ₚ times o
  ∧ filtered (render_sorts_times o) ls = filtered o ls.
Proof using Type.
  split_and!.
  - apply (Sorted_merge_sort Z.le).
  - apply (merge_sort_Permutation Z.le).
  - apply filtered_ext; try done.
    intros t. simpl. unfold sort_ascending.
    by rewrite (merge_sort_Permutation Z.le).
Qed.

(** X11: checking every major of the catalog selects the same records as
    checking none. *)
Theorem all_majors_checked_is_no_major_filter
    (o : SearchOption) (ls : list Lecture) :
  filtered (set_field (SetMajors (allMajors ls)) o) ls
  = filtered (set_field (SetMajors []) o) ls.
Proof using Type.
  rewrite !filtered_single_pass. apply filter_ext_in.
  intros r Hr%list_elem_of_In. simpl. do 4 f_equal.
  apply orb_true_iff. right. apply mem_true, allMajors_elem. by exists r.
Qed.

(** X12: closing a time tag removes exactly that time from the selection.
    If no time is left, the view can only grow; if some time is left, the
    view can only shrink. *)
Theorem closing_time_tag_widens_or_narrows
    (o : SearchOption) (ls : list Lecture) (time : Z) :
  let o' := set_field (close_time_tag time o) o in
  (∀ t, t ∈ times o' ↔ t ∈ times o ∧ t ≠ time)
  ∧ (times o' = [] → filtered o ls `sublist_of` filtered o' ls)
  ∧ (times o' ≠ [] → filtered o' ls `sublist_of` filtered o ls).
Proof using Type.
  intros o'.
  assert (∀ t, t ∈ times o' ↔ t ∈ times o ∧ t ≠ time) as Helem.
  { intros t. subst o'. simpl. rewrite elem_of_List_filter.
    rewrite negb_true_iff, Z.eqb_neq. done. }
  split_and!; [done | |].
  - intros Hnone. rewrite !filtered_single_pass.
    apply List_filter_mono. intros r _. subst o'. simpl in *.
    rewrite Hnone, !andb_true_iff. tauto.
  - intros Hsome. rewrite !filtered_single_pass.
    apply List_filter_mono. intros r _.
    assert (matches_times parseSchedule (times o') r = true →
            matches_times parseSchedule (times o) r = true) as Hmono.
    { rewrite !matches_times_spec.
      intros [?|(? & s & t & ? & ? & [? _]%Helem)]; [done |]. eauto 8. }
    subst o'. simpl in *. rewrite !andb_true_iff. tauto.
Qed.

End FilterSets.

Lemma view_depends_on_selected_sets_only_witness :
  filteredLectures Sample.toLowerCase Sample.parseSchedule
    (set_field (SetTimes [2; 1; 2]) Sample.empty_options)
    [Sample.cs101; Sample.ma201; Sample.la110]
  = filteredLectures Sample.toLowerCase Sample.parseSchedule
      (set_field (SetTimes [1; 2]) Sample.empty_options)
      [Sample.cs101; Sample.ma201; Sample.la110].
Proof.
  apply view_depends_on_selected_sets_only; try done.
  intros t. simpl. rewrite !elem_of_cons. tauto.
Defined.

Lemma closing_time_tag_widens_or_narrows_witness :
  filteredLectures Sample.toLowerCase Sample.parseSchedule
    (set_field (SetTimes [5]) Sample.empty_options)
    [Sample.cs101; Sample.ma201; Sample.la110]
  `sublist_of`
  filteredLectures Sample.toLowerCase Sample.parseSchedule
    (set_field (close_time_tag 5 (set_field (SetTimes [5]) Sample.empty_options))
       (set_field (SetTimes [5]) Sample.empty_options))
    [Sample.cs101; Sample.ma201; Sample.la110].
Proof.
  apply (closing_time_tag_widens_or_narrows
           Sample.toLowerCase Sample.parseSchedule
           (set_field (SetTimes [5]) Sample.empty_options)
           [Sample.cs101; Sample.ma201; Sample.la110] 5).
  reflexivity.
Defined.

(** ** More on pagination *)

Lemma lastPage_le (view : list Lecture) (p : Z) :
  lastPage view ≤ p ↔ Z.of_nat (length view) ≤ p * PAGE_SIZE.
Proof.
  pose proof (ceil_div_bounds (Z.of_nat (length view)) PAGE_SIZE eq_refl).
  unfold lastPage, PAGE_SIZE in *. lia.
Qed.

Lemma visibleLectures_all (view : list Lecture) (p : Z) :
  0 ≤ p → lastPage view ≤ p → visibleLectures view p = view.
Proof.
  intros Hp HL%lastPage_le. unfold visibleLectures.
  rewrite slice0_nonneg by (unfold PAGE_SIZE; lia). apply take_ge. lia.
Qed.

(** X13: at a page [p >= 0] the window is the whole view exactly when [p] has
    reached the last page; on every earlier page it holds [p * 100] records,
    which is fewer than the view has. *)
Theorem window_is_whole_view_from_last_page_on (view : list Lecture) (p : Z) :
  0 ≤ p →
  (visibleLectures view p = view ↔ lastPage view ≤ p)
  ∧ (p < lastPage view →
     Z.of_nat (length (visibleLectures view p)) = p * PAGE_SIZE
     ∧ p * PAGE_SIZE < Z.of_nat (length view)).
Proof.
  intros Hp. pose proof (visibleLectures_length view p Hp) as Hlen.
  pose proof (lastPage_le view p) as HL. split.
  - split; [| by apply visibleLectures_all].
    intros Heq. rewrite Heq in Hlen. lia.
  - intros Hlt. lia.
Qed.

(** X14: the window only grows with the page: the window of an earlier page
    is a prefix of the window of a later page, and every window is a prefix
    of the view. *)
Theorem window_grows_with_page (view : list Lecture) (p q : Z) :
  0 ≤ p → p ≤ q →
  visibleLectures view p `prefix_of` visibleLectures view q
  ∧ visibleLectures view q `prefix_of` view.
Proof.
  intros Hp Hpq. unfold visibleLectures.
  rewrite !slice0_nonneg by (unfold PAGE_SIZE; lia). split.
  - replace (take (Z.to_nat (p * PAGE_SIZE)) view)
      with (take (Z.to_nat (p * PAGE_SIZE))
              (take (Z.to_nat (q * PAGE_SIZE)) view)).
    + apply prefix_take.
    + rewrite take_take. f_equal. unfold PAGE_SIZE. lia.
  - apply prefix_take.
Qed.

Lemma window_is_whole_view_from_last_page_on_witness :
  visibleLectures (Sample.numbered 250) 3 = Sample.numbered 250
  ↔ lastPage (Sample.numbered 250) ≤ 3.
Proof.
  apply (window_is_whole_view_from_last_page_on (Sample.numbered 250) 3). lia.
Defined.

Lemma window_grows_with_page_witness :
  visibleLectures (Sample.numbered 250) 1
    `prefix_of` visibleLectures (Sample.numbered 250) 2
  ∧ visibleLectures (Sample.numbered 250) 2 `prefix_of` Sample.numbered 250.
Proof.
  apply (window_grows_with_page (Sample.numbered 250) 1 2); lia.
Defined.

Section Scrolling.
Variable toLowerCase : string → string.
Variable parseSchedule : string → list Slot.

Local Abbreviation filtered := (filteredLectures toLowerCase parseSchedule).
Local Abbreviation currentLastPage' :=
  (currentLastPage toLowerCase parseSchedule).
Local Abbreviation scroll := (observer_callback toLowerCase parseSchedule true).




End Scrolling.


(** ** The catalog held by the component *)

Lemma fetch_resolved (net : Network) (console : list LogEntry)
    (A B : list Lecture) :
  fetchMajors net = Resolved A → fetchLiberalArts net = Resolved B →
  fetchAllLectures net console
  = (Returned (uniqueLectures (A ++ B)),
     console ++ [ConsoleLog "API 호출 시작:" (startTime net);
                 ConsoleLog "API 호출 완료:" (endTime net);
                 ConsoleLog "소요 시간(ms):" (endTime net - startTime net)]).
Proof.
  intros HA HB.
  unfold fetchAllLectures, mbind, Eff_bind, try_catch, console_log, promise_all.
  rewrite HA, HB. simpl. by rewrite <- !app_assoc.
Qed.

Lemma fetch_failed (net : Network) (console : list LogEntry) :
  (∃ e, fetchMajors net = Rejected e) ∨ (∃ e, fetchLiberalArts net = Rejected e) →
  ∃ error,
    fetchAllLectures net console
    = (Returned [],
       console ++ [ConsoleLog "API 호출 시작:" (startTime net);
                   ConsoleError "강의 데이터 로딩 실패:" error]).
Proof.
  intros Hfail.
  destruct (promise_all_rejected net
              (console ++ [ConsoleLog "API 호출 시작:" (startTime net)]) Hfail)
    as (error & Hall & _).
  exists error.
  unfold fetchAllLectures, mbind, Eff_bind, try_catch, console_log,
    console_error, mret, Eff_ret.
  rewrite Hall. by rewrite <- app_assoc.
Qed.

Lemma fetch_outcomes (net : Network) :
  (∃ A B, fetchMajors net = Resolved A ∧ fetchLiberalArts net = Resolved B)
  ∨ (∃ e, fetchMajors net = Rejected e) ∨ (∃ e, fetchLiberalArts net = Rejected e).
Proof.
  destruct (fetchMajors net) as [A|e]; [| right; left; by exists e].
  destruct (fetchLiberalArts net) as [B|e]; [| right; right; by exists e].
  left. by exists A, B.
Qed.


Lemma fetch_returns (net : Network) (console : list LogEntry) :
  ∃ catalog console',
    fetchAllLectures net console = (Returned catalog, console')
    ∧ NoDup (id <$> catalog).
Proof.
  destruct (fetch_outcomes net) as [(A & B & HA & HB)|Hfail].
  - eexists _, _. split; [by apply fetch_resolved | apply uniqueLectures_NoDup].
  - destruct (fetch_failed net console Hfail) as (error & Hfetch).
    eexists _, _. split; [exact Hfetch | apply NoDup_nil_2].
Qed.

Lemma mount_with_cache (net : Network) (w : World) :
  lecturesCache (dialog w) ≠ [] →
  mount net w = with_dialog (setLectures (lecturesCache (dialog w))) w.
Proof.
  intros Hcache. unfold mount, mount_effect.
  destruct (lecturesCache (dialog w)) as [|r cache] eqn:Hc; [done |].
  by simpl.
Qed.

Lemma mount_without_cache (net : Network) (w : World)
    (catalog : list Lecture) (console' : list LogEntry) :
  lecturesCache (dialog w) = [] →
  fetchAllLectures net (console w) = (Returned catalog, console') →
  mount net w
  = {| dialog := setLectures catalog (setLecturesCache catalog (dialog w));
       console := console'; clock := clock w; timers := timers w;
       next_timer := next_timer w; timeout := timeout w;
       commits := commits w; loading := loading w |}.
Proof.
  intros Hcache Hfetch. unfold mount, mount_effect. rewrite Hcache. simpl.
  unfold mbind, Eff_bind. by rewrite Hfetch.
Qed.

Lemma commits_keep_catalog (due : list Timer) (d : Dialog) :
  let d' := foldl (λ d t, render (changeSearchOption (timer_args t) d)) d due in
  lectures d' = lectures d ∧ lecturesCache d' = lecturesCache d.
Proof.
  induction due as [|t due IH] using rev_ind; [done |].
  by rewrite foldl_snoc.
Qed.

(** [fetchAllLectures] is its two halves, one after the other. *)
Lemma fetchAllLectures_halves (net : Network) :
  fetchAllLectures net = (fetch_started net ;; fetch_settled net).
Proof. done. Qed.

Lemma fetch_settled_resolved (net : Network) (console : list LogEntry)
    (A B : list Lecture) :
  fetchMajors net = Resolved A → fetchLiberalArts net = Resolved B →
  ∃ console',
    fetch_settled net console = (Returned (uniqueLectures (A ++ B)), console').
Proof.
  intros HA HB.
  unfold fetch_settled, mbind, Eff_bind, try_catch, console_log, promise_all.
  rewrite HA, HB. by eexists.
Qed.

Lemma fetch_settled_failed (net : Network) (console : list LogEntry) :
  (∃ e, fetchMajors net = Rejected e) ∨ (∃ e, fetchLiberalArts net = Rejected e) →
  ∃ console', fetch_settled net console = (Returned [], console').
Proof.
  intros Hfail.
  destruct (promise_all_rejected net console Hfail) as (error & Hall & _).
  unfold fetch_settled, mbind, Eff_bind, try_catch, console_error, mret, Eff_ret.
  rewrite Hall. by eexists.
Qed.

Lemma fetch_settled_returns (net : Network) (console : list LogEntry) :
  ∃ catalog console',
    fetch_settled net console = (Returned catalog, console')
    ∧ NoDup (id <$> catalog).
Proof.
  destruct (fetch_outcomes net) as [(A & B & HA & HB)|Hfail].
  - destruct (fetch_settled_resolved net console A B HA HB) as [c' Hf].
    eexists _, _. split; [exact Hf | apply uniqueLectures_NoDup].
  - destruct (fetch_settled_failed net console Hfail) as [c' Hf].
    eexists _, _. split; [exact Hf | apply NoDup_nil_2].
Qed.

(** A mount that finds the cache empty changes nothing in the component and
    puts one more load in flight. *)
Lemma mount_started_fetches (net : Network) (w : World) :
  lecturesCache (dialog w) = [] →
  dialog (mount_started net w) = dialog w
  ∧ loading (mount_started net w) = loading w ++ [net].
Proof. intros Hcache. unfold mount_started. by rewrite Hcache. Qed.

Lemma mount_started_cached (net : Network) (w : World) :
  lecturesCache (dialog w) ≠ [] →
  mount_started net w = with_dialog (setLectures (lecturesCache (dialog w))) w.
Proof.
  intros Hcache. unfold mount_started.
  by destruct (lecturesCache (dialog w)).
Qed.

(** A load that settles stores what it returns, in the cache and in the
    state, whatever they held. *)
Lemma load_settled_stores (i : nat) (net : Network) (w : World)
    (catalog : list Lecture) :
  loading w !! i = Some net →
  (∀ console, ∃ console',
     fetch_settled net console = (Returned catalog, console')) →
  dialog (load_settled i w)
  = setLectures catalog (setLecturesCache catalog (dialog w))
  ∧ loading (load_settled i w) = delete i (loading w).
Proof.
  intros Hi Hsettles. unfold load_settled. rewrite Hi.
  destruct (Hsettles (console w)) as [console' ->]. done.
Qed.

(** The mount in one piece is the mount that starts, followed at once by its
    load settling. *)
Lemma mount_is_start_then_settle (net : Network) (w : World) :
  loading w = [] →
  load_settled 0 (mount_started net w) = mount net w.
Proof.
  intros Hnone. unfold mount, mount_effect, mount_started.
  destruct (0 <? length (lecturesCache (dialog w)))%nat eqn:Hcache.
  - unfold load_settled, with_dialog. simpl. by rewrite Hnone.
  - unfold load_settled. simpl. rewrite Hnone. simpl.
    rewrite fetchAllLectures_halves.
    unfold mbind, Eff_bind at 1 2, fetch_started, console_log. simpl.
    destruct (fetch_settled net (console w ++ _)) as [[results|e] console'];
      by rewrite ?Hnone.
Qed.

Section Catalog.
Variable toLowerCase : string → string.
Variable parseSchedule : string → list Slot.

Local Abbreviation filtered := (filteredLectures toLowerCase parseSchedule).
Local Abbreviation step' := (step toLowerCase parseSchedule).
Local Abbreviation run' := (run toLowerCase parseSchedule).
Local Abbreviation reachable' := (reachable toLowerCase parseSchedule).

Lemma step_catalog (w : World) (e : Event) :
  lectures (dialog w) = lecturesCache (dialog w) →
  NoDup (id <$> lectures (dialog w)) →
  lectures (dialog (step' w e)) = lecturesCache (dialog (step' w e))
  ∧ NoDup (id <$> lectures (dialog (step' w e))).
Proof.
  intros Hsame Hdistinct.
  destruct e as [net|info|u|[|]|ms|net|i]; simpl; try done.
  - destruct (decide (lecturesCache (dialog w) = [])) as [Hnone|Hsome].
    + destruct (fetch_returns net (console w)) as (catalog & c' & Hf & Hnd).
      by rewrite (mount_without_cache net w catalog c').
    + rewrite mount_with_cache by done. simpl. by rewrite <- Hsame.
  - destruct (commits_keep_catalog
                (List.filter (is_due (clock w + ms)) (timers w)) (dialog w))
      as [-> ->]. done.
  - destruct (decide (lecturesCache (dialog w) = [])) as [Hnone|Hsome].
    + by destruct (mount_started_fetches net w Hnone) as [-> _].
    + rewrite mount_started_cached by done. simpl. by rewrite <- Hsame.
  - unfold load_settled. destruct (loading w !! i) as [net|]; [| done].
    destruct (fetch_settled_returns net (console w))
      as (catalog & c' & -> & Hnd). done.
Qed.

Lemma reachable_catalog (w : World) :
  reachable' w →
  lectures (dialog w) = lecturesCache (dialog w)
  ∧ NoDup (id <$> lectures (dialog w)).
Proof.
  intros [es ->]. induction es as [|e es [IH1 IH2]] using rev_ind.
  - split; [done | apply NoDup_nil_2].
  - unfold run. rewrite foldl_snoc. by apply step_catalog.
Qed.

(** X17: in every reachable state the catalog in the state is the cached
    one and lists no identifier twice; hence neither the filtered view nor
    the visible window shows two records with the same identifier. *)
Theorem reachable_catalog_has_distinct_ids (w : World) :
  reachable' w →
  let d := dialog w in
  let view := filtered (searchOptions d) (lectures d) in
  lectures d = lecturesCache d
  ∧ NoDup (id <$> lectures d)
  ∧ NoDup (id <$> view)
  ∧ NoDup (id <$> visibleLectures view (page d)).
Proof using Type.
  intros [Hsame Hdistinct]%reachable_catalog d view.
  assert (NoDup (id <$> view)) as Hview.
  { eapply sublist_NoDup; [exact Hdistinct |].
    apply fmap_sublist. subst view. rewrite filtered_single_pass.
    apply List_filter_sublist. }
  split_and!; [done | done | done |].
  eapply sublist_NoDup; [exact Hview |].
  apply fmap_sublist. unfold visibleLectures, JS.slice0. apply sublist_take.
Qed.

(** X18: once a catalog that is not empty is loaded, mounting again is a
    no-op, whatever the network would answer: no request is made, nothing is
    written to the console and the state stays as it is. *)
Theorem mount_with_loaded_catalog_is_noop (w : World) (net : Network) :
  reachable' w → lectures (dialog w) ≠ [] → mount net w = w.
Proof using Type.
  intros [Hsame _]%reachable_catalog Hloaded.
  rewrite mount_with_cache by (by rewrite <- Hsame).
  rewrite <- Hsame. unfold with_dialog, setLectures.
  destruct w as [[] ? ? ? ? ? ?]. done.
Qed.

(** X19: a failed load is not cached.  With an empty catalog and no load in
    flight, when the load of a first mount fails and has settled before a
    second mount starts, the second mount fetches again, and once its load
    has settled its merged catalog is in the state and in the cache.  When
    the second mount starts while the first load is still in flight, both
    fetch, and the load that settles last decides: the merged catalog stays
    if the failing load settles first, and is overwritten by the empty
    catalog if the failing load settles last. *)
Theorem failed_load_is_retried_on_next_mount
    (w : World) (net1 net2 : Network) (A B : list Lecture) :
  reachable' w →
  lectures (dialog w) = [] →
  loading w = [] →
  (∃ e, fetchMajors net1 = Rejected e) ∨ (∃ e, fetchLiberalArts net1 = Rejected e) →
  fetchMajors net2 = Resolved A →
  fetchLiberalArts net2 = Resolved B →
  let merged := uniqueLectures (A ++ B) in
  let one_after_the_other :=
    run' [MountStarted net1; LoadSettled 0; MountStarted net2; LoadSettled 0] w in
  let failing_settles_first :=
    run' [MountStarted net1; MountStarted net2; LoadSettled 0; LoadSettled 0] w in
  let failing_settles_last :=
    run' [MountStarted net1; MountStarted net2; LoadSettled 1; LoadSettled 0] w in
  (lectures (dialog one_after_the_other) = merged
   ∧ lecturesCache (dialog one_after_the_other) = merged)
  ∧ (lectures (dialog failing_settles_first) = merged
     ∧ lecturesCache (dialog failing_settles_first) = merged)
  ∧ (lectures (dialog failing_settles_last) = []
     ∧ lecturesCache (dialog failing_settles_last) = []).
Proof using Type.
  intros [Hsame _]%reachable_catalog Hempty Hnone Hfail HA HB.
  rewrite Hempty in Hsame. symmetry in Hsame.
  assert (∀ console, ∃ console',
            fetch_settled net1 console = (Returned [], console')) as Hload1
    by (intros c; by apply fetch_settled_failed).
  assert (∀ console, ∃ console',
            fetch_settled net2 console
            = (Returned (uniqueLectures (A ++ B)), console')) as Hload2
    by (intros c; by apply fetch_settled_resolved).
  intros merged one_after_the_other failing_settles_first failing_settles_last.
  subst one_after_the_other failing_settles_first failing_settles_last.
  cbn [run foldl step].
  destruct (mount_started_fetches net1 w Hsame) as [Hd1 Hl1].
  rewrite Hnone in Hl1. simpl in Hl1.
  set (w1 := mount_started net1 w) in *.
  split; [| split].
  - destruct (load_settled_stores 0 net1 w1 [])
      as [Hd2 Hl2]; [by rewrite Hl1 | done |].
    rewrite Hl1 in Hl2. simpl in Hl2. set (w2 := load_settled 0 w1) in *.
    destruct (mount_started_fetches net2 w2) as [Hd3 Hl3]; [by rewrite Hd2 |].
    rewrite Hl2 in Hl3. simpl in Hl3. set (w3 := mount_started net2 w2) in *.
    destruct (load_settled_stores 0 net2 w3 merged)
      as [Hd4 _]; [by rewrite Hl3 | done |].
    by rewrite Hd4.
  - destruct (mount_started_fetches net2 w1) as [Hd2 Hl2];
      [by rewrite Hd1 |].
    rewrite Hl1 in Hl2. simpl in Hl2. set (w2 := mount_started net2 w1) in *.
    destruct (load_settled_stores 0 net1 w2 [])
      as [Hd3 Hl3]; [by rewrite Hl2 | done |].
    rewrite Hl2 in Hl3. simpl in Hl3. set (w3 := load_settled 0 w2) in *.
    destruct (load_settled_stores 0 net2 w3 merged)
      as [Hd4 _]; [by rewrite Hl3 | done |].
    by rewrite Hd4.
  - destruct (mount_started_fetches net2 w1) as [Hd2 Hl2];
      [by rewrite Hd1 |].
    rewrite Hl1 in Hl2. simpl in Hl2. set (w2 := mount_started net2 w1) in *.
    destruct (load_settled_stores 1 net2 w2 merged)
      as [Hd3 Hl3]; [by rewrite Hl2 | done |].
    rewrite Hl2 in Hl3. simpl in Hl3. set (w3 := load_settled 1 w2) in *.
    destruct (load_settled_stores 0 net1 w3 [])
      as [Hd4 _]; [by rewrite Hl3 | done |].
    by rewrite Hd4.
Qed.

End Catalog.

Lemma reachable_catalog_has_distinct_ids_witness :
  let d :=
    dialog (run Sample.toLowerCase Sample.parseSchedule
              [Mount Sample.online] initialWorld) in
  let view :=
    filteredLectures Sample.toLowerCase Sample.parseSchedule
      (searchOptions d) (lectures d) in
  lectures d = lecturesCache d
  ∧ NoDup (id <$> lectures d)
  ∧ NoDup (id <$> view)
  ∧ NoDup (id <$> visibleLectures view (page d)).
Proof.
  apply (reachable_catalog_has_distinct_ids
           Sample.toLowerCase Sample.parseSchedule).
  by eexists.
Defined.

Lemma mount_with_loaded_catalog_is_noop_witness :
  mount Sample.offline
    (run Sample.toLowerCase Sample.parseSchedule
       [Mount Sample.online] initialWorld)
  = run Sample.toLowerCase Sample.parseSchedule
      [Mount Sample.online] initialWorld.
Proof.
  apply (mount_with_loaded_catalog_is_noop
           Sample.toLowerCase Sample.parseSchedule).
  - by eexists.
  - by vm_compute.
Defined.

Lemma failed_load_is_retried_on_next_mount_witness :
  let merged :=
    uniqueLectures ([Sample.cs101; Sample.ma201] ++ [Sample.cs101'; Sample.la110]) in
  let one_after_the_other :=
    run Sample.toLowerCase Sample.parseSchedule
      [MountStarted Sample.offline; LoadSettled 0;
       MountStarted Sample.online; LoadSettled 0] initialWorld in
  let failing_settles_first :=
    run Sample.toLowerCase Sample.parseSchedule
      [MountStarted Sample.offline; MountStarted Sample.online;
       LoadSettled 0; LoadSettled 0] initialWorld in
  let failing_settles_last :=
    run Sample.toLowerCase Sample.parseSchedule
      [MountStarted Sample.offline; MountStarted Sample.online;
       LoadSettled 1; LoadSettled 0] initialWorld in
  (lectures (dialog one_after_the_other) = merged
   ∧ lecturesCache (dialog one_after_the_other) = merged)
  ∧ (lectures (dialog failing_settles_first) = merged
     ∧ lecturesCache (dialog failing_settles_first) = merged)
  ∧ (lectures (dialog failing_settles_last) = []
     ∧ lecturesCache (dialog failing_settles_last) = []).
Proof.
  apply (failed_load_is_retried_on_next_mount
           Sample.toLowerCase Sample.parseSchedule
           initialWorld Sample.offline Sample.online).
  - apply initialWorld_reachable.
  - reflexivity.
  - reflexivity.
  - right. by eexists.
  - reflexivity.
  - reflexivity.
Defined.

Example overlapping_mounts_in_the_console :
  console
    (run Sample.toLowerCase Sample.parseSchedule
       [MountStarted Sample.offline; MountStarted Sample.online;
        LoadSettled 1; LoadSettled 0] initialWorld)
  = [ConsoleLog "API 호출 시작:" 10; ConsoleLog "API 호출 시작:" 10;
     ConsoleLog "API 호출 완료:" 25; ConsoleLog "소요 시간(ms):" 15;
     ConsoleError "강의 데이터 로딩 실패:" (NetworkError "Network Error")].
Proof. reflexivity. Qed.

(** ** More on the debounced updates *)

Section Pending.
Variable toLowerCase : string → string.
Variable parseSchedule : string → list Slot.

Local Abbreviation filtered := (filteredLectures toLowerCase parseSchedule).
Local Abbreviation step' := (step toLowerCase parseSchedule).
Local Abbreviation run' := (run toLowerCase parseSchedule).
Local Abbreviation reachable' := (reachable toLowerCase parseSchedule).

Lemma paced_commits (calls : list (Update * nat)) :
  ∀ w : World,
    at_most_one_pending w →
    Forall (λ c, (300 ≤ c.2)%nat) calls →
    let w' := run' (paced calls) w in
    commits w' = commits w ++ calls.*1
    ∧ dialog w'
      = foldl (λ d u, render (changeSearchOption u d)) (dialog w) calls.*1
    ∧ (timers w = [] ∨ calls ≠ [] → timers w' = []).
Proof.
  induction calls as [|[u pause] calls IH]; intros w Hw Hpauses.
  - simpl. rewrite app_nil_r. split_and!; [done | done |].
    by intros [?|?].
  - apply Forall_cons in Hpauses as [Hpause Hpauses]. simpl in Hpause.
    unfold paced. cbn [flat_map]. fold (paced calls).
    change (run' ([Change u; Elapse pause] ++ paced calls) w)
      with (run' (paced calls) (elapse pause (debounce 300 u w))).
    rewrite debounce_rearms by done.
    erewrite elapse_after_deadline; [| reflexivity | simpl; lia].
    cbn [dialog console clock timers next_timer timeout commits
         timer_args].
    match goal with |- context [run' _ ?w1] => set (w1' := w1) end.
    destruct (IH w1') as (Hc & Hd & Ht); [by left | done |].
    cbn zeta. rewrite Hc, Hd. subst w1'. simpl.
    rewrite <- app_assoc. split_and!; [done | done |].
    intros _. apply Ht. by left.
Qed.

Lemma field_of_rendered_update (u : Update) :
  field_of (rendered_update u) = field_of u.
Proof. by destruct u. Qed.

(** What a sequence of commits, each followed by its render, leaves in the
    component: under every field the rendered value of the last update for
    that field, or the old value if there was none. *)
Lemma commits_fields (us : list Update) (d : Dialog) :
  Sorted Z.le (times (searchOptions d)) →
  let d' := foldl (λ d u, render (changeSearchOption u d)) d us in
  (∀ f, get_field f (searchOptions d')
        = default (get_field f (searchOptions d))
            (last (filter (λ u, field_of u = f) (rendered_update <$> us))))
  ∧ Sorted Z.le (times (searchOptions d'))
  ∧ (us ≠ [] → page d' = 1)
  ∧ lectures d' = lectures d.
Proof.
  intros Hd. induction us as [|u us IH] using rev_ind; [done |].
  cbn zeta in *. rewrite foldl_snoc, fmap_app.
  destruct IH as (Hfields & Hsorted & _ & Hlectures).
  set (d' := foldl (λ d u, render (changeSearchOption u d)) d us) in *.
  split_and!; [| apply render_times_sorted | done | done].
  intros f.
  change (searchOptions (render (changeSearchOption u d')))
    with (render_sorts_times (set_field u (searchOptions d'))).
  rewrite get_field_committed by done.
  rewrite filter_app. cbn [fmap list_fmap].
  rewrite filter_cons, filter_nil, field_of_rendered_update.
  destruct (decide (field_of u = f)).
  - by rewrite last_snoc.
  - by rewrite app_nil_r.
Qed.

(** X20: calls that are each followed by a pause of at least 300 ms are all
    committed, each once and in the order of the calls, every commit followed
    by its render.  Afterwards the criteria hold, under every field, the
    value of the last call for that field (the times in ascending order, as
    the render leaves them), and what they held before under a field for
    which there was no call; the page is 1, the catalog is untouched and no
    timer is left pending. *)
Theorem paced_calls_are_all_committed_in_order
    (w : World) (calls : list (Update * nat)) :
  reachable' w →
  Forall (λ c, (300 ≤ c.2)%nat) calls →
  calls ≠ [] →
  let w' := run' (paced calls) w in
  commits w' = commits w ++ calls.*1
  ∧ dialog w'
    = foldl (λ d u, render (changeSearchOption u d)) (dialog w) calls.*1
  ∧ (∀ f, get_field f (searchOptions (dialog w'))
          = default (get_field f (searchOptions (dialog w)))
              (last (filter (λ u, field_of u = f)
                       (rendered_update <$> calls.*1))))
  ∧ page (dialog w') = 1
  ∧ lectures (dialog w') = lectures (dialog w)
  ∧ timers w' = [].
Proof using Type.
  intros Hw Hpauses Hsome w'.
  pose proof (reachable_times_sorted toLowerCase parseSchedule w Hw) as Hsorted.
  apply reachable_at_most_one_pending in Hw.
  destruct (paced_commits calls w Hw Hpauses) as (Hc & Hd & Ht).
  destruct (commits_fields calls.*1 (dialog w) Hsorted)
    as (Hfields & _ & Hpage & Hlectures).
  fold w' in Hc, Hd, Ht. rewrite <- Hd in Hfields, Hpage, Hlectures.
  split_and!; [done | done | done | | done |].
  - apply Hpage. by destruct calls.
  - apply Ht. by right.
Qed.

Lemma searchInfo_effect_times_sorted (info : option SearchInfo) (d : Dialog) :
  Sorted Z.le (times (searchOptions (searchInfo_effect info d))).
Proof.
  simpl. destruct (info ≫= info_time) as [t|]; [| constructor].
  destruct (JS.truthy_number t); repeat constructor.
Qed.

(** X21: a change of the context hint does not cancel a pending update.  An
    update called less than 300 ms before the hint changes is committed
    afterwards, on top of the criteria the hint has set: after the commit and
    its render the criteria hold the value of the update under its field
    (the times in ascending order) and, under every other field, what the
    hint had left there; the page is 1 and the catalog is untouched.  If the
    update is for the days, its days have replaced the day of the hint. *)
Theorem pending_update_survives_hint_and_overrides_it
    (w : World) (u : Update) (info : option SearchInfo) (gap t : nat) :
  reachable' w →
  (gap < 300)%nat →
  (300 ≤ gap + t)%nat →
  let hinted := searchInfo_effect info (dialog w) in
  let w' := run' [Change u; Elapse gap; SearchInfoChanged info; Elapse t] w in
  commits w' = commits w ++ [u]
  ∧ dialog w' = render (changeSearchOption u hinted)
  ∧ get_field (field_of u) (searchOptions (dialog w')) = rendered_update u
  ∧ (∀ f, f ≠ field_of u →
       get_field f (searchOptions (dialog w'))
       = get_field f (searchOptions hinted))
  ∧ page (dialog w') = 1
  ∧ lectures (dialog w') = lectures (dialog w)
  ∧ (∀ v, u = SetDays v → days (searchOptions (dialog w')) = v).
Proof using Type.
  intros Hw%reachable_at_most_one_pending Hgap Ht hinted w'. subst w'.
  change (run' [Change u; Elapse gap; SearchInfoChanged info; Elapse t] w)
    with (elapse t (with_dialog (searchInfo_effect info)
                      (elapse gap (debounce 300 u w)))).
  rewrite debounce_rearms by done.
  rewrite (elapse_before_deadline gap
             (mkTimer (next_timer w) (clock w + 300) u))
    by (done || (simpl; lia)).
  rewrite (elapse_after_deadline t
             (mkTimer (next_timer w) (clock w + 300) u))
    by (done || (simpl; lia)).
  cbn [dialog commits with_dialog timer_args]. fold hinted.
  pose proof (searchInfo_effect_times_sorted info (dialog w)) as Hsorted.
  fold hinted in Hsorted.
  change (searchOptions (render (changeSearchOption u hinted)))
    with (render_sorts_times (set_field u (searchOptions hinted))).
  split_and!; [done | done | | | done | done |].
  - rewrite get_field_committed by done. by rewrite decide_True.
  - intros f Hf. rewrite get_field_committed by done. by rewrite decide_False.
  - by intros v ->.
Qed.

Lemma filter_times_sorted (keep : Z → bool) (ts : list Z) :
  Sorted Z.le ts → Sorted Z.le (List.filter keep ts).
Proof.
  intros Hts. apply Sorted_StronglySorted in Hts; [| intros ???; lia].
  apply StronglySorted_Sorted.
  induction Hts as [|t ts Hts IH Hall]; simpl; [constructor |].
  destruct (keep t); [| done].
  constructor; [done |].
  apply List.Forall_forall. intros v [Hv _]%List.filter_In.
  rewrite List.Forall_forall in Hall. by apply Hall.
Qed.

(** X22: the close buttons of the tags work on the criteria of the last
    render.  When two time tags are closed less than 300 ms apart, no commit
    lies between the two clicks, both clicks start from the same criteria,
    and only the second tag is removed: the first one is still selected
    after the commit. *)
Theorem closing_two_tags_quickly_removes_only_the_second
    (w : World) (time1 time2 : Z) (gap t : nat) :
  reachable' w →
  (gap < 300)%nat →
  (300 ≤ t)%nat →
  let o := searchOptions (dialog w) in
  let w' :=
    run' [Change (close_time_tag time1 o); Elapse gap;
          Change (close_time_tag time2 o); Elapse t] w in
  times (searchOptions (dialog w'))
  = List.filter (λ v, negb (v =? time2)) (times o)
  ∧ (time1 ∈ times o → time1 ≠ time2 →
     time1 ∈ times (searchOptions (dialog w'))).
Proof using Type.
  intros Hw Hgap Ht o w'.
  pose proof (reachable_times_sorted toLowerCase parseSchedule w Hw) as Hsorted.
  apply reachable_at_most_one_pending in Hw.
  assert (Forall (λ gu : nat * Update, (gu.1 < 300)%nat)
            [(gap, close_time_tag time2 o)])
    as Hgaps by (by apply Forall_singleton).
  destruct (burst_commits_last toLowerCase parseSchedule w
              (close_time_tag time1 o) [(gap, close_time_tag time2 o)] t
              Hw Hgaps) as (_ & _ & Hfire & _).
  destruct (Hfire Ht) as (_ & Hd & _).
  change (dialog w'
          = render (changeSearchOption (close_time_tag time2 o) (dialog w)))
    in Hd.
  assert (times (searchOptions (dialog w'))
          = List.filter (λ v, negb (v =? time2)) (times o)) as Htimes.
  { rewrite Hd. simpl. apply sort_ascending_fixed.
    by apply filter_times_sorted. }
  split; [done |].
  intros Hin Hne. rewrite Htimes. apply elem_of_List_filter. split; [done |].
  by rewrite negb_true_iff, Z.eqb_neq.
Qed.

Lemma step_pending_timer (w : World) (e : Event) :
  (timers w = []
   ∨ ∃ t, timers w = [t] ∧ timeout w = Some (timer_id t)
          ∧ (clock w < deadline t ≤ clock w + 300)%nat
          ∧ (timer_id t < next_timer w)%nat) →
  timers (step' w e) = []
  ∨ ∃ t, timers (step' w e) = [t] ∧ timeout (step' w e) = Some (timer_id t)
         ∧ (clock (step' w e) < deadline t ≤ clock (step' w e) + 300)%nat
         ∧ (timer_id t < next_timer (step' w e))%nat.
Proof.
  intros Hw.
  assert (at_most_one_pending w) as Hone.
  { destruct Hw as [?|(t & ? & ? & _)]; [by left | right; by exists t]. }
  destruct e as [net|info|u|b|ms|net|i]; cbn [step].
  - unfold mount.
    destruct (mount_effect net (dialog w) (console w)) as [[]]; exact Hw.
  - exact Hw.
  - unfold debouncedChangeSearchOption. rewrite debounce_rearms by done.
    right. eexists. split; [reflexivity |]. simpl. split; [done | lia].
  - exact Hw.
  - destruct Hw as [Hnone|(t & Hone' & Hhandle & Hdue & Hid)].
    + rewrite elapse_idle by done. by left.
    + destruct (decide (deadline t ≤ clock w + ms)%nat).
      * rewrite (elapse_after_deadline ms t) by done. by left.
      * rewrite (elapse_before_deadline ms t) by (done || lia).
        right. exists t. simpl. split_and!; [done | done | lia | lia | done].
  - destruct (mount_started_frame net w) as (-> & -> & -> & -> & _). exact Hw.
  - destruct (load_settled_frame i w) as (-> & -> & -> & -> & _). exact Hw.
Qed.

(** X23: in every reachable state at most one timer is pending; it is the
    one [timeout] refers to, it is not overdue, and it comes due within 300
    ms: a pending update is committed at most 300 ms later unless a new call
    replaces it. *)
Theorem pending_timer_is_single_and_due_within_wait (w : World) :
  reachable' w →
  timers w = []
  ∨ ∃ t, timers w = [t] ∧ timeout w = Some (timer_id t)
         ∧ (clock w < deadline t ≤ clock w + 300)%nat
         ∧ (timer_id t < next_timer w)%nat.
Proof using Type.
  intros [es ->]. induction es as [|e es IH] using rev_ind; [by left |].
  unfold run. rewrite foldl_snoc. by apply step_pending_timer.
Qed.

(** X24: after the context hint has been applied, the filtered view only
    holds records that fit the hint: with a day in the hint, records with a
    slot on that day; with a time in the hint, records with a slot that
    covers that time. *)
Theorem hint_restricts_view_to_its_day_and_time
    (info : SearchInfo) (d : Dialog) (r : Lecture) :
  let d' := searchInfo_effect (Some info) d in
  r ∈ filtered (searchOptions d') (lectures d') →
  (∀ hint_day, info_day info = Some hint_day → hint_day ≠ "" →
     ∃ s, s ∈ parseSchedule (schedule r) ∧ day s = hint_day)
  ∧ (∀ hint_time, info_time info = Some hint_time → hint_time ≠ 0 →
       ∃ s, s ∈ parseSchedule (schedule r) ∧ hint_time ∈ range s).
Proof using Type.
  intros d' (_ & _ & _ & _ & _ & Hdays & Htimes)%filteredLectures_elem.
  subst d'. simpl in Hdays, Htimes. split.
  - intros hint_day Hday Hne. rewrite Hday in Hdays.
    destruct hint_day as [|c rest]; [done |]. simpl in Hdays.
    apply matches_days_spec in Hdays as [?|(_ & s & Hs & Hd)]; [done |].
    exists s. split; [done |]. by apply list_elem_of_singleton in Hd.
  - intros hint_time Htime Hne. rewrite Htime in Htimes.
    unfold JS.truthy_number in Htimes.
    rewrite (proj2 (Z.eqb_neq _ _) Hne) in Htimes. simpl in Htimes.
    apply matches_times_spec in Htimes as [?|(_ & s & t & Hs & Ht & Hin)];
      [done |].
    exists s. split; [done |]. apply list_elem_of_singleton in Hin. by subst.
Qed.

End Pending.

Lemma paced_calls_are_all_committed_in_order_witness :
  let calls :=
    [(SetTimes [3; 1], 300%nat); (SetGrades [1], 450%nat);
     (SetTimes [2; 1], 300%nat)] in
  let w' :=
    run Sample.toLowerCase Sample.parseSchedule (paced calls) initialWorld in
  commits w' = commits initialWorld ++ calls.*1
  ∧ dialog w'
    = foldl (λ d u, render (changeSearchOption u d)) (dialog initialWorld)
        calls.*1
  ∧ (∀ f, get_field f (searchOptions (dialog w'))
          = default (get_field f (searchOptions (dialog initialWorld)))
              (last (filter (λ u, field_of u = f)
                       (rendered_update <$> calls.*1))))
  ∧ page (dialog w') = 1
  ∧ lectures (dialog w') = lectures (dialog initialWorld)
  ∧ timers w' = [].
Proof.
  apply (paced_calls_are_all_committed_in_order
           Sample.toLowerCase Sample.parseSchedule initialWorld
           [(SetTimes [3; 1], 300%nat); (SetGrades [1], 450%nat);
            (SetTimes [2; 1], 300%nat)]).
  - apply initialWorld_reachable.
  - repeat constructor; simpl; lia.
  - discriminate.
Defined.

Example paced_calls_leave_last_value_of_each_field :
  let w' :=
    run Sample.toLowerCase Sample.parseSchedule
      (paced [(SetTimes [3; 1], 300%nat); (SetGrades [1], 450%nat);
              (SetTimes [2; 1], 300%nat)])
      initialWorld in
  times (searchOptions (dialog w')) = [1; 2]
  ∧ grades (searchOptions (dialog w')) = [1]
  ∧ days (searchOptions (dialog w')) = [].
Proof. by vm_compute. Qed.

Lemma pending_update_survives_hint_and_overrides_it_witness :
  let info := Some (mkSearchInfo "schedule-1" (Some "M") (Some 1)) in
  let hinted := searchInfo_effect info (dialog initialWorld) in
  let w' :=
    run Sample.toLowerCase Sample.parseSchedule
      [Change (SetDays ["W"]); Elapse 100; SearchInfoChanged info; Elapse 200]
      initialWorld in
  commits w' = commits initialWorld ++ [SetDays ["W"]]
  ∧ dialog w' = render (changeSearchOption (SetDays ["W"]) hinted)
  ∧ get_field (field_of (SetDays ["W"])) (searchOptions (dialog w'))
    = rendered_update (SetDays ["W"])
  ∧ (∀ f, f ≠ field_of (SetDays ["W"]) →
       get_field f (searchOptions (dialog w'))
       = get_field f (searchOptions hinted))
  ∧ page (dialog w') = 1
  ∧ lectures (dialog w') = lectures (dialog initialWorld)
  ∧ (∀ v, SetDays ["W"] = SetDays v → days (searchOptions (dialog w')) = v).
Proof.
  apply (pending_update_survives_hint_and_overrides_it
           Sample.toLowerCase Sample.parseSchedule initialWorld
           (SetDays ["W"])
           (Some (mkSearchInfo "schedule-1" (Some "M") (Some 1))) 100 200).
  - apply initialWorld_reachable.
  - lia.
  - lia.
Defined.

Example pending_update_on_top_of_the_hint :
  let w' :=
    run Sample.toLowerCase Sample.parseSchedule
      [Change (SetDays ["W"]); Elapse 100;
       SearchInfoChanged (Some (mkSearchInfo "schedule-1" (Some "M") (Some 1)));
       Elapse 200]
      initialWorld in
  days (searchOptions (dialog w')) = ["W"]
  ∧ times (searchOptions (dialog w')) = [1].
Proof. by vm_compute. Qed.

Lemma closing_two_tags_quickly_removes_only_the_second_witness :
  let w :=
    run Sample.toLowerCase Sample.parseSchedule
      [Change (SetTimes [1; 2; 3]); Elapse 300] initialWorld in
  let o := searchOptions (dialog w) in
  let w' :=
    run Sample.toLowerCase Sample.parseSchedule
      [Change (close_time_tag 1 o); Elapse 50;
       Change (close_time_tag 2 o); Elapse 300] w in
  times (searchOptions (dialog w'))
  = List.filter (λ v, negb (v =? 2)) (times o)
  ∧ (1 ∈ times o → 1 ≠ 2 → 1 ∈ times (searchOptions (dialog w'))).
Proof.
  apply (closing_two_tags_quickly_removes_only_the_second
           Sample.toLowerCase Sample.parseSchedule
           (run Sample.toLowerCase Sample.parseSchedule
              [Change (SetTimes [1; 2; 3]); Elapse 300] initialWorld)
           1 2 50 300).
  - by eexists.
  - lia.
  - lia.
Defined.

Lemma pending_timer_is_single_and_due_within_wait_witness :
  let w :=
    run Sample.toLowerCase Sample.parseSchedule
      [Change (SetQuery (Some "a")); Elapse 120; Change (SetGrades [2])]
      initialWorld in
  timers w = []
  ∨ ∃ t, timers w = [t] ∧ timeout w = Some (timer_id t)
         ∧ (clock w < deadline t ≤ clock w + 300)%nat
         ∧ (timer_id t < next_timer w)%nat.
Proof.
  apply (pending_timer_is_single_and_due_within_wait
           Sample.toLowerCase Sample.parseSchedule).
  by eexists.
Defined.

Lemma hint_restricts_view_to_its_day_and_time_witness :
  (∀ hint_day, Some "M" = Some hint_day → hint_day ≠ "" →
     ∃ s, s ∈ Sample.parseSchedule (schedule Sample.cs101)
          ∧ day s = hint_day)
  ∧ (∀ hint_time, Some 1 = Some hint_time → hint_time ≠ 0 →
       ∃ s, s ∈ Sample.parseSchedule (schedule Sample.cs101)
            ∧ hint_time ∈ range s).
Proof.
  apply (hint_restricts_view_to_its_day_and_time
           Sample.toLowerCase Sample.parseSchedule
           (mkSearchInfo "schedule-1" (Some "M") (Some 1))
           (setLectures [Sample.cs101; Sample.ma201; Sample.la110]
              initialDialog)
           Sample.cs101).
  vm_compute. left.
Defined.

(** X25: the context hint replaces whatever days and times were selected by
    at most one day and one time of its own: a hint with a non-empty day
    selects exactly that day, and a hint with a time other than 0 selects
    exactly that time.  It sets the page to 1 and keeps query, grades,
    majors, credit filter and catalog; applying the same hint twice is the
    same as applying it once.  A hint without a day, or with an empty day,
    selects no day; a hint without a time, or with time 0, selects no time;
    the id of every slot of [TIME_SLOTS] is kept as the one selected time. *)
Theorem hint_replaces_days_and_times
    (searchInfo : option SearchInfo) (d : Dialog) :
  let d' := searchInfo_effect searchInfo d in
  page d' = 1
  ∧ lectures d' = lectures d
  ∧ (∀ f, f ≠ Fdays → f ≠ Ftimes →
       get_field f (searchOptions d') = get_field f (searchOptions d))
  ∧ searchInfo_effect searchInfo d' = d'
  ∧ (days (searchOptions d') = []
     ↔ ∀ hint_day, searchInfo ≫= info_day = Some hint_day → hint_day = "")
  ∧ (times (searchOptions d') = []
     ↔ ∀ hint_time, searchInfo ≫= info_time = Some hint_time → hint_time = 0)
  ∧ (∀ slot, slot ∈ TIME_SLOTS → searchInfo ≫= info_time = Some slot.1 →
       times (searchOptions d') = [slot.1])
  ∧ (∀ hint_day, searchInfo ≫= info_day = Some hint_day → hint_day ≠ "" →
       days (searchOptions d') = [hint_day])
  ∧ (∀ hint_time, searchInfo ≫= info_time = Some hint_time → hint_time ≠ 0 →
       times (searchOptions d') = [hint_time]).
Proof.
  intros d'. subst d'. split_and!; try done.
  - by intros [].
  - simpl. destruct (searchInfo ≫= info_day) as [[|c hint_day]|]; simpl.
    + split; [by intros _ ? [= <-] | done].
    + split; [done | intros Hall; by specialize (Hall _ eq_refl)].
    + by split.
  - simpl. destruct (searchInfo ≫= info_time) as [hint_time|]; simpl.
    + unfold JS.truthy_number.
      destruct (Z.eqb_spec hint_time 0) as [->|Hne]; simpl.
      * split; [by intros _ ? [= <-] | done].
      * split; [done | intros Hall; by specialize (Hall _ eq_refl)].
    + by split.
  - intros slot Hslot Htime. simpl. rewrite Htime.
    assert (slot.1 ≠ 0) as Hne.
    { intros Hzero. revert Hslot. unfold TIME_SLOTS.
      rewrite !elem_of_cons, elem_of_nil.
      intros Hin. destruct slot as [n label]. simpl in Hzero. subst n.
      repeat (destruct Hin as [[=]|Hin]). done. }
    unfold JS.truthy_number. by rewrite (proj2 (Z.eqb_neq _ _) Hne).
  - intros hint_day Hday Hne. simpl. rewrite Hday.
    by destruct hint_day.
  - intros hint_time Htime Hne. simpl. rewrite Htime.
    unfold JS.truthy_number. by rewrite (proj2 (Z.eqb_neq _ _) Hne).
Qed.

(** ** More on the schedule export *)

Section ScheduleExport.
Variable parseSchedule : string → list Slot.

Local Abbreviation tagged lecture :=
  ((λ s, {| sched_slot := s; sched_lecture := lecture |})
     <$> parseSchedule (schedule lecture)).

Lemma addSchedule_present (info : SearchInfo) (lecture : Lecture)
    (m : gmap string (list Schedule)) (existing : list Schedule) :
  m !! tableId info = Some existing →
  addSchedule parseSchedule (Some info) lecture m
  = (Returned (<[tableId info := existing ++ tagged lecture]> m), true).
Proof. intros Hm. unfold addSchedule, schedulesMap_updater. by rewrite Hm. Qed.

(** X26: a successful export neither adds nor removes a table; what it
    appends to the list of the target table are the parsed slots of the
    lecture, in the order in which the parser gives them, each tagged with
    the lecture. *)
Theorem export_keeps_tables_and_tags_slots
    (info : SearchInfo) (lecture : Lecture)
    (m : gmap string (list Schedule)) (existing : list Schedule) :
  m !! tableId info = Some existing →
  ∃ m' added,
    addSchedule parseSchedule (Some info) lecture m = (Returned m', true)
    ∧ dom m' = dom m
    ∧ m' !! tableId info = Some (existing ++ added)
    ∧ sched_slot <$> added = parseSchedule (schedule lecture)
    ∧ Forall (λ s, sched_lecture s = lecture) added.
Proof using Type.
  intros Hm. eexists _, (tagged lecture).
  split; [by apply addSchedule_present |]. split_and!.
  - by apply dom_insert_lookup_L.
  - apply lookup_insert_eq.
  - rewrite <- list_fmap_compose. apply list_fmap_id.
  - apply Forall_fmap, Forall_true. done.
Qed.

(** X27: exports add up: two exports into the same table leave its old
    list followed by the slots of the first lecture and then the slots of
    the second, and leave the other tables as they were. *)
Theorem two_exports_into_one_table_append_in_order
    (info : SearchInfo) (lecture1 lecture2 : Lecture)
    (m : gmap string (list Schedule)) (existing : list Schedule) :
  m !! tableId info = Some existing →
  ∃ m1 m2,
    addSchedule parseSchedule (Some info) lecture1 m = (Returned m1, true)
    ∧ addSchedule parseSchedule (Some info) lecture2 m1 = (Returned m2, true)
    ∧ m2 !! tableId info
      = Some (existing ++ tagged lecture1 ++ tagged lecture2)
    ∧ ∀ other, other ≠ tableId info → m2 !! other = m !! other.
Proof using Type.
  intros Hm. eexists _, _.
  split; [by apply addSchedule_present |].
  split; [apply addSchedule_present, lookup_insert_eq |].
  split.
  - by rewrite lookup_insert_eq, <- app_assoc.
  - intros other Hother. by rewrite !lookup_insert_ne.
Qed.

(** X28: exports into two different tables do not interfere: either order
    gives the same store. *)
Theorem exports_into_different_tables_commute
    (info1 info2 : SearchInfo) (lecture1 lecture2 : Lecture)
    (m : gmap string (list Schedule)) (existing1 existing2 : list Schedule) :
  tableId info1 ≠ tableId info2 →
  m !! tableId info1 = Some existing1 →
  m !! tableId info2 = Some existing2 →
  ∃ m1 m2 m12 m21,
    addSchedule parseSchedule (Some info1) lecture1 m = (Returned m1, true)
    ∧ addSchedule parseSchedule (Some info2) lecture2 m1 = (Returned m12, true)
    ∧ addSchedule parseSchedule (Some info2) lecture2 m = (Returned m2, true)
    ∧ addSchedule parseSchedule (Some info1) lecture1 m2 = (Returned m21, true)
    ∧ m12 = m21.
Proof using Type.
  intros Hne Hm1 Hm2. eexists _, _, _, _.
  split; [by apply addSchedule_present |].
  split; [apply addSchedule_present; by rewrite lookup_insert_ne |].
  split; [by apply addSchedule_present |].
  split; [apply addSchedule_present; by rewrite lookup_insert_ne |].
  by apply insert_insert_ne.
Qed.

End ScheduleExport.

Lemma export_keeps_tables_and_tags_slots_witness :
  ∃ m' added,
    addSchedule Sample.parseSchedule
      (Some (mkSearchInfo "schedule-1" None None)) Sample.cs101
      {[ "schedule-1" := [] ]}
    = (Returned m', true)
    ∧ dom m' = dom ({[ "schedule-1" := [] ]} : gmap string (list Schedule))
    ∧ m' !! "schedule-1" = Some ([] ++ added)
    ∧ sched_slot <$> added = Sample.parseSchedule (schedule Sample.cs101)
    ∧ Forall (λ s, sched_lecture s = Sample.cs101) added.
Proof.
  apply (export_keeps_tables_and_tags_slots Sample.parseSchedule
           (mkSearchInfo "schedule-1" None None) Sample.cs101
           {[ "schedule-1" := [] ]} []).
  reflexivity.
Defined.

Lemma two_exports_into_one_table_append_in_order_witness :
  ∃ m1 m2,
    addSchedule Sample.parseSchedule
      (Some (mkSearchInfo "schedule-1" None None)) Sample.cs101
      {[ "schedule-1" := [] ]}
    = (Returned m1, true)
    ∧ addSchedule Sample.parseSchedule
        (Some (mkSearchInfo "schedule-1" None None)) Sample.la110 m1
      = (Returned m2, true)
    ∧ m2 !! "schedule-1"
      = Some ([] ++ [mkSchedule (mkSlot "M" [1; 2]) Sample.cs101]
                 ++ [mkSchedule (mkSlot "W" [5]) Sample.la110])
    ∧ ∀ other, other ≠ "schedule-1" →
        m2 !! other
        = ({[ "schedule-1" := [] ]} : gmap string (list Schedule)) !! other.
Proof.
  apply (two_exports_into_one_table_append_in_order Sample.parseSchedule
           (mkSearchInfo "schedule-1" None None) Sample.cs101 Sample.la110
           {[ "schedule-1" := [] ]} []).
  reflexivity.
Defined.

Lemma exports_into_different_tables_commute_witness :
  ∃ m1 m2 m12 m21,
    addSchedule Sample.parseSchedule
      (Some (mkSearchInfo "schedule-1" None None)) Sample.cs101
      {[ "schedule-1" := []; "schedule-2" := [] ]}
    = (Returned m1, true)
    ∧ addSchedule Sample.parseSchedule
        (Some (mkSearchInfo "schedule-2" None None)) Sample.la110 m1
      = (Returned m12, true)
    ∧ addSchedule Sample.parseSchedule
        (Some (mkSearchInfo "schedule-2" None None)) Sample.la110
        {[ "schedule-1" := []; "schedule-2" := [] ]}
      = (Returned m2, true)
    ∧ addSchedule Sample.parseSchedule
        (Some (mkSearchInfo "schedule-1" None None)) Sample.cs101 m2
      = (Returned m21, true)
    ∧ m12 = m21.
Proof.
  apply (exports_into_different_tables_commute Sample.parseSchedule
           (mkSearchInfo "schedule-1" None None)
           (mkSearchInfo "schedule-2" None None) Sample.cs101 Sample.la110
           {[ "schedule-1" := []; "schedule-2" := [] ]} [] []).
  - discriminate.
  - reflexivity.
  - reflexivity.
Defined.

(** ** The labels of the majors *)

Lemma append_cons (c : Ascii.ascii) (s t : string) :
  String c s +:+ t = String c (s +:+ t).
Proof. done. Qed.

Lemma string_app_nil_r (s : string) : s +:+ "" = s.
Proof. induction s as [|c s IH]; [done |]. by rewrite append_cons, IH. Qed.

Lemma string_app_assoc (s1 s2 s3 : string) :
  (s1 +:+ s2) +:+ s3 = s1 +:+ (s2 +:+ s3).
Proof. induction s1 as [|c s1 IH]; [done |]. by rewrite !append_cons, IH. Qed.

Lemma string_length_app (s1 s2 : string) :
  String.length (s1 +:+ s2) = (String.length s1 + String.length s2)%nat.
Proof.
  induction s1 as [|c s1 IH]; [done |].
  rewrite append_cons. cbn [String.length]. by rewrite IH.
Qed.

Lemma includes_cons (c : Ascii.ascii) (s p : string) :
  JS.includes (String c s) p = JS.startsWith (String c s) p || JS.includes s p.
Proof. done. Qed.

Section Split.
Variable separator : string.
Hypothesis separator_not_empty : separator ≠ "".

(** Put [current] in front of the first segment. *)
Local Abbreviation prepend current segments :=
  (match segments with
   | seg :: segs => (current +:+ seg) :: segs
   | [] => []
   end).

Lemma split_from_current (s : string) :
  ∀ skip current,
    split_from separator skip current s
    = prepend current (split_from separator skip "" s).
Proof.
  induction s as [|c s IH]; intros skip current.
  - cbn [split_from]. by rewrite string_app_nil_r.
  - cbn [split_from]. destruct skip as [|skip]; [| apply IH].
    destruct (JS.startsWith (String c s) separator).
    + by rewrite string_app_nil_r.
    + rewrite (IH 0%nat (current +:+ String c "")).
      rewrite (IH 0%nat ("" +:+ String c "")).
      destruct (split_from separator 0 "" s) as [|seg segs]; [done |].
      by rewrite string_app_assoc.
Qed.

Lemma split_from_skip (passed rest : string) (current : string) :
  split_from separator (String.length passed) current (passed +:+ rest)
  = split_from separator 0 current rest.
Proof. induction passed as [|c passed IH]; [done |]. apply IH. Qed.

Lemma split_from_match (current rest : string) :
  split_from separator 0 current (separator +:+ rest)
  = current :: split_from separator 0 "" rest.
Proof using separator_not_empty.
  destruct separator as [|a sep'] eqn:Hsep; [done |].
  rewrite append_cons. cbn [split_from].
  rewrite (proj2 (startsWith_spec (String a (sep' +:+ rest)) (String a sep')))
    by (by exists rest).
  cbn [String.length]. rewrite Nat.sub_succ, Nat.sub_0_r, <- Hsep.
  by rewrite split_from_skip.
Qed.

Lemma split_from_no_match (c : Ascii.ascii) (s : string) :
  JS.startsWith (String c s) separator = false →
  split_from separator 0 "" (String c s)
  = prepend (String c "") (split_from separator 0 "" s).
Proof.
  intros Hno. cbn [split_from]. rewrite Hno. apply split_from_current.
Qed.

Lemma separator_length : (0 < String.length separator)%nat.
Proof using separator_not_empty.
  destruct separator; [done |]. cbn [String.length]. lia.
Qed.

Lemma includes_empty_string : JS.includes "" separator = false.
Proof using separator_not_empty. by destruct separator. Qed.

(** The last segment: either the whole string, when the scan found no
    separator, or what follows a separator; it holds no separator. *)
Lemma split_from_last (n : nat) :
  ∀ s, (String.length s < n)%nat →
    ∃ label,
      last (split_from separator 0 "" s) = Some label
      ∧ JS.includes label separator = false
      ∧ ((split_from separator 0 "" s = [s] ∧ label = s)
         ∨ (∃ seg segs before,
              split_from separator 0 "" s = seg :: segs ∧ segs ≠ []
              ∧ s = before +:+ separator +:+ label)).
Proof using separator_not_empty.
  induction n as [|n IH]; intros s Hlen; [lia |].
  destruct s as [|c s].
  - exists "". split_and!; [done | apply includes_empty_string | by left].
  - destruct (JS.startsWith (String c s) separator) eqn:Hstart.
    + apply startsWith_spec in Hstart as [rest Hs]. rewrite Hs.
      rewrite split_from_match.
      destruct (IH rest) as (label & Hlast & Hfree & Hshape).
      { apply (f_equal String.length) in Hs.
        rewrite string_length_app in Hs. cbn [String.length] in Hs, Hlen.
        pose proof separator_length. lia. }
      exists label. split_and!; [| done |].
      * destruct (split_from separator 0 "" rest); [done | exact Hlast].
      * right. exists "", (split_from separator 0 "" rest).
        assert (split_from separator 0 "" rest ≠ []) as Hsome
          by (intros Hnil; by rewrite Hnil in Hlast).
        destruct Hshape as [[Hone ->]|(seg & segs & before & _ & _ & Hrest)].
        -- by exists "".
        -- exists (separator +:+ before).
           split_and!; [done | done |].
           by rewrite Hrest, !string_app_assoc.
    + rewrite split_from_no_match by done.
      destruct (IH s) as (label & Hlast & Hfree & Hshape);
        [cbn [String.length] in Hlen; lia |].
      destruct Hshape as [[Hone ->]|(seg & segs & before & Hsplit & Hmore & Hs)].
      * exists (String c s). rewrite Hone. split_and!; [done | | by left].
        by rewrite includes_cons, Hstart, Hfree.
      * exists label. rewrite Hsplit. rewrite Hsplit in Hlast.
        split_and!; [by destruct segs | done |].
        right. exists (String c "" +:+ seg), segs, (String c before).
        split_and!; [done | done |]. by rewrite Hs.
Qed.

End Split.

(** X29: the label on the tag of a selected major holds no separator [<p>];
    it is the whole major when the major holds none, and otherwise the text
    that follows a separator of the major, which makes it the text after the
    last one. *)
Theorem tag_label_is_text_after_last_separator (m : string) :
  JS.includes (major_tag_label m) "<p>" = false
  ∧ (JS.includes m "<p>" = false → major_tag_label m = m)
  ∧ (major_tag_label m = m
     ∨ ∃ before, m = before +:+ "<p>" +:+ major_tag_label m).
Proof.
  unfold major_tag_label, split.
  destruct (split_from_last "<p>" ltac:(done) (S (String.length m)) m)
    as (label & Hlast & Hfree & Hshape); [lia |].
  rewrite Hlast. simpl. split_and!; [done | |].
  - intros Hnone.
    destruct Hshape as [[_ ->]|(_ & _ & before & _ & _ & Hm)]; [done |].
    assert (JS.includes m "<p>" = true) as Hsome
      by (apply includes_spec; by exists before, label).
    congruence.
  - destruct Hshape as [[_ ->]|(_ & _ & before & _ & _ & Hm)];
      [by left | right; by exists before].
Qed.

Lemma p_tag_here_spec (s : string) :
  p_tag_here s = true ↔ ∃ rest, s = "<p>" +:+ rest ∨ s = "<P>" +:+ rest.
Proof.
  unfold p_tag_here. rewrite orb_true_iff, !startsWith_spec. split.
  - intros [[rest ?]|[rest ?]]; exists rest; auto.
  - intros [rest [?|?]]; [left | right]; by exists rest.
Qed.

Lemma replace_p_tags_match (tag rest : string) :
  tag = "<p>" ∨ tag = "<P>" →
  replace_p_tags_from 0 (tag +:+ rest) = String " "%char (replace_p_tags_from 0 rest).
Proof.
  intros Htag.
  assert (p_tag_here (tag +:+ rest) = true) as Hhere.
  { apply p_tag_here_spec. exists rest. by destruct Htag as [-> | ->]; [left | right]. }
  destruct Htag as [-> | ->]; rewrite !append_cons in *;
    change ("" +:+ rest) with rest in *;
    cbn [replace_p_tags_from]; by rewrite Hhere.
Qed.

Lemma replace_p_tags_no_match (c : Ascii.ascii) (s : string) :
  p_tag_here (String c s) = false →
  replace_p_tags_from 0 (String c s) = String c (replace_p_tags_from 0 s).
Proof. intros Hno. cbn [replace_p_tags_from]. by rewrite Hno. Qed.

(** A character of the output other than a blank was copied from the input. *)
Lemma replace_p_tags_head (s : string) (c : Ascii.ascii) (out : string) :
  replace_p_tags_from 0 s = String c out → c ≠ " "%char →
  ∃ s', s = String c s' ∧ p_tag_here s = false
        ∧ out = replace_p_tags_from 0 s'.
Proof.
  intros Hout Hc. destruct s as [|a s]; [done |].
  destruct (p_tag_here (String a s)) eqn:Htag.
  - apply p_tag_here_spec in Htag as [rest Hs].
    assert (∃ tag, String a s = tag +:+ rest ∧ (tag = "<p>" ∨ tag = "<P>"))
      as (tag & Heq & Htag) by (destruct Hs; eauto).
    rewrite Heq, replace_p_tags_match in Hout by done. congruence.
  - rewrite replace_p_tags_no_match in Hout by done.
    injection Hout as -> <-. by exists s.
Qed.

Lemma replace_p_tags_no_new_match (c : Ascii.ascii) (s tag : string) :
  tag = "<p>" ∨ tag = "<P>" →
  p_tag_here (String c s) = false →
  JS.startsWith (String c (replace_p_tags_from 0 s)) tag = false.
Proof.
  intros Htag Hno.
  destruct (JS.startsWith (String c (replace_p_tags_from 0 s)) tag) eqn:Hst;
    [| done].
  apply startsWith_spec in Hst as [rest Hst].
  assert (∃ letter : Ascii.ascii,
            (letter = "p"%char ∨ letter = "P"%char)
            ∧ c = "<"%char
            ∧ replace_p_tags_from 0 s = String letter (String ">"%char rest))
    as (letter & Hletter & -> & Hout).
  { destruct Htag as [-> | ->]; injection Hst as -> ->; eauto. }
  apply replace_p_tags_head in Hout as (s1 & -> & _ & Hout);
    [| by destruct Hletter as [-> | ->]].
  symmetry in Hout.
  apply replace_p_tags_head in Hout as (s2 & -> & _ & _); [| done].
  assert (p_tag_here (String "<"%char (String letter (String ">"%char s2))) = true)
    as Hyes.
  { apply p_tag_here_spec. exists s2.
    by destruct Hletter as [-> | ->]; [left | right]. }
  congruence.
Qed.

Lemma replace_p_tags_clean (n : nat) :
  ∀ s, (String.length s < n)%nat →
    JS.includes (replace_p_tags_from 0 s) "<p>" = false
    ∧ JS.includes (replace_p_tags_from 0 s) "<P>" = false
    ∧ (String.length (replace_p_tags_from 0 s) ≤ String.length s)%nat.
Proof.
  induction n as [|n IH]; intros s Hlen; [lia |].
  destruct s as [|c s]; [done |].
  destruct (p_tag_here (String c s)) eqn:Htag.
  - apply p_tag_here_spec in Htag as [rest Hs].
    assert (∃ tag, String c s = tag +:+ rest ∧ (tag = "<p>" ∨ tag = "<P>"))
      as (tag & Heq & Htag) by (destruct Hs; eauto).
    rewrite Heq, replace_p_tags_match by done.
    assert (String.length (tag +:+ rest) = 3 + String.length rest)%nat as Hl
      by (by destruct Htag as [-> | ->]).
    rewrite Heq, Hl in Hlen.
    destruct (IH rest) as (H1 & H2 & H3); [lia |].
    rewrite !includes_cons, H1, H2, Hl. cbn [String.length].
    split_and!; [done | done | lia].
  - rewrite replace_p_tags_no_match by done.
    cbn [String.length] in Hlen.
    destruct (IH s) as (H1 & H2 & H3); [lia |].
    rewrite !includes_cons, H1, H2.
    rewrite !replace_p_tags_no_new_match by auto.
    cbn [String.length]. split_and!; [done | done | lia].
Qed.

Lemma replace_p_tags_none (s : string) :
  JS.includes s "<p>" = false → JS.includes s "<P>" = false →
  replace_p_tags_from 0 s = s.
Proof.
  induction s as [|c s IH]; [done |].
  rewrite !includes_cons, !orb_false_iff. intros [Hp1 Hs1] [Hp2 Hs2].
  rewrite replace_p_tags_no_match by (unfold p_tag_here; by rewrite Hp1, Hp2).
  by rewrite IH.
Qed.

(** X30: the label on the check box of a major holds no separator, in
    either spelling [<p>] or [<P>], is never longer than the major, and is
    the major itself when the major holds no separator. *)
Theorem checkbox_label_holds_no_separator (m : string) :
  JS.includes (major_checkbox_label m) "<p>" = false
  ∧ JS.includes (major_checkbox_label m) "<P>" = false
  ∧ (String.length (major_checkbox_label m) ≤ String.length m)%nat
  ∧ (JS.includes m "<p>" = false → JS.includes m "<P>" = false →
     major_checkbox_label m = m).
Proof.
  unfold major_checkbox_label.
  destruct (replace_p_tags_clean (S (String.length m)) m) as (H1 & H2 & H3);
    [lia |].
  split_and!; [done | done | done | apply replace_p_tags_none].
Qed.

Example labels_of_a_major :
  major_tag_label "Engineering<p>Computer Science" = "Computer Science"
  ∧ major_checkbox_label "Engineering<p>Computer Science"
    = "Engineering Computer Science"
  ∧ major_checkbox_label "A<P>B<<p>p>" = "A B< p>".
Proof. by vm_compute. Qed.

Lemma hint_replaces_days_and_times_witness :
  let d' :=
    searchInfo_effect
      (Some (mkSearchInfo "schedule-1" (Some "M") (Some 1)))
      (setSearchOptions (set_field (SetDays ["T"; "W"])) initialDialog) in
  days (searchOptions d') = ["M"] ∧ times (searchOptions d') = [1].
Proof.
  destruct (hint_replaces_days_and_times
              (Some (mkSearchInfo "schedule-1" (Some "M") (Some 1)))
              (setSearchOptions (set_field (SetDays ["T"; "W"])) initialDialog))
    as (_ & _ & _ & _ & _ & _ & _ & Hday & Htime).
  split.
  - apply Hday; [reflexivity | discriminate].
  - apply Htime; [reflexivity | discriminate].
Defined.

Lemma tag_label_is_text_after_last_separator_witness :
  major_tag_label "Computer Science" = "Computer Science".
Proof.
  apply (tag_label_is_text_after_last_separator "Computer Science").
  reflexivity.
Defined.

Lemma checkbox_label_holds_no_separator_witness :
  major_checkbox_label "Computer Science" = "Computer Science".
Proof.
  apply (checkbox_label_holds_no_separator "Computer Science");
    reflexivity.
Defined.
